(** * AuthManager (assets/js/auth.js): roles, sessions, permissions, audit log

    A shallow embedding of the [AuthManager] class of [assets/js/auth.js] and
    the properties of its permission check, session lifecycle and audit log.

    The class is JavaScript: values are dynamically typed, property reads
    walk the prototype chain, arrays are objects shared by reference, and
    any call may throw.  The embedding keeps these features where the code
    relies on them:
    - [JSValue] is the fragment of JavaScript values the class handles;
      the session in [this.currentUser] is such a value, since
      [loadSession] installs whatever [JSON.parse] returns;
    - methods are computations in a state-and-exception monad [M];
    - arrays of audit entries live in a store ([arrays]) and are named by
      location, so that [push] and [sort] mutate in place and [slice],
      [filter] and the spread copy allocate;
    - the clock, [Math.random], [navigator] and [window.location] are read
      from an environment [Env].

    Typed where the code is uniform: an audit entry is a record (its event,
    timestamp and path are strings; user id, user role and payload are
    values), the filters of [getAuditLog] and the format of
    [exportAuditLog] are strings, numbers are integers.  After the class
    come its clients in the same file: one tick of the session timer, the
    click handler of the guarded elements, and [FW_API.request] up to the
    promise it returns.  Left out: what only touches the document
    ([setupUI], [updateUserInterface], [applyRoleRestrictions], the anchor
    element of [downloadFile]). *)

From Stdlib Require Import ZArith Lia Ascii Sorted.
From stdpp Require Import base option list strings gmap pretty.

Set Warnings "-register-all".

(** ** Characters and strings *)

Definition dquote : ascii := "034"%char.
Definition backslash : ascii := "\"%char.
Definition comma : ascii := ","%char.
Definition colon : ascii := ":"%char.
Definition newline : ascii := "010"%char.

Definition str1 (c : ascii) : string := String c EmptyString.

(** [s.split(sep)[0]] for a one-character separator: the part of [s] before
    the first [sep], and [s] itself when there is none. *)
Fixpoint first_segment (sep : ascii) (s : string) : string :=
  match s with
  | EmptyString => EmptyString
  | String c r =>
      if decide (c = sep) then EmptyString else String c (first_segment sep r)
  end.

(** [cells.join(sep)] *)
Fixpoint join (sep : string) (cells : list string) : string :=
  match cells with
  | [] => EmptyString
  | [c] => c
  | c :: rest => c +:+ sep +:+ join sep rest
  end.

(** [s.endsWith(t)] and [s.includes(t)] *)
Fixpoint starts_with (t s : string) : bool :=
  match t, s with
  | EmptyString, _ => true
  | String a t', String b s' => bool_decide (a = b) && starts_with t' s'
  | String _ _, EmptyString => false
  end.

Fixpoint str_includes (t s : string) : bool :=
  starts_with t s ||
  match s with
  | EmptyString => false
  | String _ s' => str_includes t s'
  end.

Definition ends_with (t s : string) : bool :=
  starts_with (String.rev t) (String.rev s).

(** ** JavaScript values *)

Inductive JSValue :=
| JUndefined
| JNull
| JBool (b : bool)
| JNum (n : Z)
| JStr (s : string)
| JArr (items : list JSValue)
| JObj (props : list (string * JSValue)).

(** Numbers are the integers: the class produces no other number (clock
    readings, lengths, counts). *)

Inductive Error :=
| TypeError (msg : string)
| SyntaxError (msg : string).

(** ToBoolean *)
Definition truthy (v : JSValue) : bool :=
  match v with
  | JUndefined | JNull => false
  | JBool b => b
  | JNum n => negb (n =? 0)%Z
  | JStr s => negb (bool_decide (s = EmptyString))
  | JArr _ | JObj _ => true
  end.

(** [a || b] *)
Definition js_or (a b : JSValue) : JSValue := if truthy a then a else b.

(** ToString; an array prints its elements separated by commas, with
    [null] and [undefined] elements printed as nothing. *)
Fixpoint ToString (v : JSValue) : string :=
  match v with
  | JUndefined => "undefined"
  | JNull => "null"
  | JBool true => "true"
  | JBool false => "false"
  | JNum n => pretty n
  | JStr s => s
  | JArr items =>
      join ","
        (List.map (fun x => match x with
                            | JUndefined | JNull => EmptyString
                            | _ => ToString x
                            end) items)
  | JObj _ => "[object Object]"
  end.

(** Own property lookup in an object literal or a parsed object. *)
Fixpoint assoc (k : string) (props : list (string * JSValue)) : option JSValue :=
  match props with
  | [] => None
  | (k', v) :: rest => if decide (k = k') then Some v else assoc k rest
  end.

(** [v.k] for the property names the class reads on sessions ([username],
    [role], [name], [timestamp]): none of them is defined on a prototype,
    so the read is the own property or [undefined]; reading a property of
    [null] or [undefined] throws. *)
Definition get_prop (v : JSValue) (k : string) : Error + JSValue :=
  match v with
  | JUndefined | JNull =>
      inl (TypeError ("Cannot read properties of " +:+ ToString v))
  | JObj props => inr (default JUndefined (assoc k props))
  | _ => inr JUndefined
  end.

(** [v?.k] *)
Definition get_opt (v : JSValue) (k : string) : JSValue :=
  match get_prop v k with
  | inr x => x
  | inl _ => JUndefined
  end.

(** *** JSON

    [JSON.stringify] leaves out the properties whose value is [undefined]
    and writes [null] for an [undefined] array element.  [json_norm v] is
    the value [JSON.parse(JSON.stringify(v))] for [v] other than
    [undefined]. *)
Fixpoint json_norm (v : JSValue) : JSValue :=
  match v with
  | JUndefined => JNull
  | JArr items => JArr (List.map json_norm items)
  | JObj props =>
      JObj ((fix go (ps : list (string * JSValue)) :=
               match ps with
               | [] => []
               | (k, JUndefined) :: rest => go rest
               | (k, x) :: rest => (k, json_norm x) :: go rest
               end) props)
  | _ => v
  end.

(** A text given to or obtained from the platform ([localStorage] values,
    [Blob] contents).  A JSON text is kept as a value it is the
    [JSON.stringify] of, so that [JSON.parse] of the text is [json_norm] of
    that value; [Verbatim s] is the text [s] where [s] is not JSON
    ([JSON.parse] throws on it) or is never parsed (URLs, messages, CSV). *)
Inductive Text :=
| Verbatim (s : string)
| Stringified (v : JSValue).

(** [JSON.stringify(undefined)] is [undefined], which a string context
    turns into the text [undefined]. *)
Definition JSON_stringify (v : JSValue) : Text :=
  match v with
  | JUndefined => Verbatim "undefined"
  | _ => Stringified v
  end.

Definition JSON_parse (t : Text) : Error + JSValue :=
  match t with
  | Verbatim s => inl (SyntaxError ("Unexpected token in JSON: " +:+ s))
  | Stringified v => inr (json_norm v)
  end.

(** [!text] for a value returned by [localStorage.getItem]: [null] and the
    empty string are falsy. *)
Definition text_falsy (t : option Text) : bool :=
  match t with
  | None => true
  | Some (Verbatim s) => bool_decide (s = EmptyString)
  | Some (Stringified _) => false
  end.

(** *** The text of a JSON value

    [JSON.stringify(v)] without indentation, as text: needed where the text
    itself is processed further (the Data column of the CSV export). *)

Definition hex_digit (n : N) : ascii :=
  match n with
  | 0%N => "0" | 1%N => "1" | 2%N => "2" | 3%N => "3" | 4%N => "4"
  | 5%N => "5" | 6%N => "6" | 7%N => "7" | 8%N => "8" | 9%N => "9"
  | 10%N => "a" | 11%N => "b" | 12%N => "c" | 13%N => "d" | 14%N => "e"
  | _ => "f"
  end%char.

Definition json_escape_char (c : ascii) : string :=
  if decide (c = dquote) then String backslash (str1 dquote)
  else if decide (c = backslash) then String backslash (str1 backslash)
  else if decide (c = "008"%char) then "\b"
  else if decide (c = "012"%char) then "\f"
  else if decide (c = "010"%char) then "\n"
  else if decide (c = "013"%char) then "\r"
  else if decide (c = "009"%char) then "\t"
  else if (N_of_ascii c <? 32)%N then
    "\u00" +:+ String (hex_digit (N_of_ascii c / 16))
                 (str1 (hex_digit (N_of_ascii c mod 16)))
  else str1 c.

Fixpoint json_escape (s : string) : string :=
  match s with
  | EmptyString => EmptyString
  | String c r => json_escape_char c +:+ json_escape r
  end.

Definition json_quote (s : string) : string :=
  String dquote (json_escape s +:+ str1 dquote).

Fixpoint JSON_text (v : JSValue) : string :=
  match v with
  | JUndefined | JNull => "null"
  | JBool true => "true"
  | JBool false => "false"
  | JNum n => pretty n
  | JStr s => json_quote s
  | JArr items => "[" +:+ join "," (List.map JSON_text items) +:+ "]"
  | JObj props =>
      "{" +:+
      join ","
        ((fix go (ps : list (string * JSValue)) :=
            match ps with
            | [] => []
            | (k, JUndefined) :: rest => go rest
            | (k, x) :: rest => (json_quote k +:+ ":" +:+ JSON_text x) :: go rest
            end) props)
      +:+ "}"
  end.

(** [String(JSON.stringify(v))] *)
Definition JSON_stringify_string (v : JSValue) : string :=
  match v with
  | JUndefined => "undefined"
  | _ => JSON_text v
  end.

(** ** Roles *)

Record Role := {
  name : string;
  permissions : list string;
  dashboardAccess : bool;
  defaultSection : option string;
}.

Definition guest : Role :=
  {| name := "Guest";
     permissions := ["view:public"; "read:catalog"];
     dashboardAccess := false;
     defaultSection := None |}.

Definition researcher : Role :=
  {| name := "Researcher";
     permissions := ["view:public"; "read:catalog"; "download:metadata"];
     dashboardAccess := false;
     defaultSection := None |}.

Definition curator : Role :=
  {| name := "Curator";
     permissions :=
       ["view:public"; "read:catalog"; "write:artifacts"; "edit:metadata";
        "generate:reports"; "view:dashboard"; "export:data";
        "propose:deaccession"];
     dashboardAccess := true;
     defaultSection := Some "overview" |}.

Definition board : Role :=
  {| name := "Board Member";
     permissions :=
       ["view:public"; "read:catalog"; "view:dashboard"; "view:reports";
        "approve:deaccession"; "view:financial"; "export:reports";
        "audit:readonly"];
     dashboardAccess := true;
     defaultSection := Some "reports" |}.

Definition auditor : Role :=
  {| name := "External Auditor";
     permissions :=
       ["view:public"; "read:catalog"; "view:dashboard"; "audit:full";
        "export:reports"; "view:compliance"];
     dashboardAccess := true;
     defaultSection := Some "compliance" |}.

Definition admin : Role :=
  {| name := "System Administrator";
     permissions := ["*"];
     dashboardAccess := true;
     defaultSection := Some "overview" |}.

(** [this.roles]: the own properties of the object literal. *)
Definition roles : gmap string Role :=
  <["guest" := guest]> (<["researcher" := researcher]> (<["curator" := curator]>
  (<["board" := board]> (<["auditor" := auditor]> (<["admin" := admin]> ∅))))).

(** [this.roles] is an object literal, so its prototype is
    [Object.prototype]: a read [this.roles[k]] that finds no own property
    continues there.  These are its property names; all hold functions,
    except [__proto__], which reads as [Object.prototype] itself. *)
Definition Object_prototype_keys : list string :=
  ["constructor"; "hasOwnProperty"; "isPrototypeOf"; "propertyIsEnumerable";
   "toLocaleString"; "toString"; "valueOf"; "__proto__";
   "__defineGetter__"; "__defineSetter__"; "__lookupGetter__";
   "__lookupSetter__"].

(** What [this.roles[k]] evaluates to. *)
Inductive RoleSlot :=
| OwnRole (r : Role)        (* one of the six role records *)
| Inherited (k : string)    (* a member of Object.prototype: truthy, and
                               without a [permissions] property *)
| Missing.                  (* undefined *)

Definition roles_get (k : string) : RoleSlot :=
  match roles !! k with
  | Some r => OwnRole r
  | None =>
      if decide (k ∈ Object_prototype_keys) then Inherited k else Missing
  end.

(** [list.includes(x)] on an array of strings *)
Definition includes (l : list string) (x : string) : bool :=
  bool_decide (x ∈ l).

(** ** Audit entries *)

Record AuditEntry := {
  entry_id : string;          (* id *)
  timestamp : string;         (* ISO-8601 text of the creation instant *)
  event : string;
  userId : JSValue;
  userRole : JSValue;
  userAgent : string;
  ip : string;
  path : string;
  data : JSValue;
}.

(** The entry as the object the code builds, properties in the order of
    the object literal in [logAudit]. *)
Definition entry_to_json (e : AuditEntry) : JSValue :=
  JObj [("id", JStr (entry_id e)); ("timestamp", JStr (timestamp e));
        ("event", JStr (event e)); ("userId", userId e);
        ("userRole", userRole e); ("userAgent", JStr (userAgent e));
        ("ip", JStr (ip e)); ("path", JStr (path e)); ("data", data e)].

Definition entry_of_json (v : JSValue) : option AuditEntry :=
  match v with
  | JObj [("id", JStr i); ("timestamp", JStr t); ("event", JStr ev);
          ("userId", u); ("userRole", r); ("userAgent", JStr ua);
          ("ip", JStr a); ("path", JStr p); ("data", d)] =>
      Some {| entry_id := i; timestamp := t; event := ev; userId := u;
              userRole := r; userAgent := ua; ip := a; path := p; data := d |}
  | _ => None
  end.

(** A parsed document as an array of audit entries, when it is one. *)
Definition log_of_json (v : JSValue) : option (list AuditEntry) :=
  match v with
  | JArr items => mapM entry_of_json items
  | _ => None
  end.

Definition log_to_json (l : list AuditEntry) : JSValue :=
  JArr (List.map entry_to_json l).

(** ** Environment and state *)

(** What the class reads from the platform.  [clock k] is the [k]-th reading
    of the system clock in milliseconds ([Date.now()] and [new Date()]),
    [random k] the [k]-th value of [Math.random().toString(36).substr(2, 9)].
    [toISOString t] is the ISO text of the instant [t] and [Date_parse s] the
    instant [new Date(s).getTime()], [None] for an invalid date ([NaN]).
    [window.location] does not change while the page lives: assigning
    [location.href] starts a navigation that replaces the page. *)
Record Env := {
  clock : nat → Z;
  random : nat → string;
  toISOString : Z → string;
  Date_parse : string → option Z;
  navigator_userAgent : string;
  location_pathname : string;
  location_hash : string;
  location_href : string;
}.

Abbreviation loc := nat (only parsing).

(** A file handed to the browser by [downloadFile]. *)
Record Download := {
  filename : string;
  mime : string;
  body : Text;
}.

Record State := {
  currentUser : JSValue;                  (* this.currentUser *)
  auditLog : loc;                         (* this.auditLog, a reference *)
  arrays : gmap nat (list AuditEntry);    (* the arrays of audit entries *)
  localStorage : gmap string Text;
  clockReads : nat;
  randomReads : nat;
  downloads : list Download;
  alerts : list string;                   (* showError *)
  navigation : option string;             (* window.location.href = ... *)
}.

Definition set_currentUser (v : JSValue) (s : State) : State :=
  {| currentUser := v; auditLog := auditLog s; arrays := arrays s;
     localStorage := localStorage s; clockReads := clockReads s;
     randomReads := randomReads s; downloads := downloads s;
     alerts := alerts s; navigation := navigation s |}.

Definition set_auditLog (l : loc) (s : State) : State :=
  {| currentUser := currentUser s; auditLog := l; arrays := arrays s;
     localStorage := localStorage s; clockReads := clockReads s;
     randomReads := randomReads s; downloads := downloads s;
     alerts := alerts s; navigation := navigation s |}.

Definition set_arrays (a : gmap nat (list AuditEntry)) (s : State) : State :=
  {| currentUser := currentUser s; auditLog := auditLog s; arrays := a;
     localStorage := localStorage s; clockReads := clockReads s;
     randomReads := randomReads s; downloads := downloads s;
     alerts := alerts s; navigation := navigation s |}.

Definition set_localStorage (m : gmap string Text) (s : State) : State :=
  {| currentUser := currentUser s; auditLog := auditLog s; arrays := arrays s;
     localStorage := m; clockReads := clockReads s;
     randomReads := randomReads s; downloads := downloads s;
     alerts := alerts s; navigation := navigation s |}.

Definition set_clockReads (n : nat) (s : State) : State :=
  {| currentUser := currentUser s; auditLog := auditLog s; arrays := arrays s;
     localStorage := localStorage s; clockReads := n;
     randomReads := randomReads s; downloads := downloads s;
     alerts := alerts s; navigation := navigation s |}.

Definition set_randomReads (n : nat) (s : State) : State :=
  {| currentUser := currentUser s; auditLog := auditLog s; arrays := arrays s;
     localStorage := localStorage s; clockReads := clockReads s;
     randomReads := n; downloads := downloads s;
     alerts := alerts s; navigation := navigation s |}.

Definition set_downloads (d : list Download) (s : State) : State :=
  {| currentUser := currentUser s; auditLog := auditLog s; arrays := arrays s;
     localStorage := localStorage s; clockReads := clockReads s;
     randomReads := randomReads s; downloads := d;
     alerts := alerts s; navigation := navigation s |}.

Definition set_alerts (a : list string) (s : State) : State :=
  {| currentUser := currentUser s; auditLog := auditLog s; arrays := arrays s;
     localStorage := localStorage s; clockReads := clockReads s;
     randomReads := randomReads s; downloads := downloads s;
     alerts := a; navigation := navigation s |}.

Definition set_navigation (n : option string) (s : State) : State :=
  {| currentUser := currentUser s; auditLog := auditLog s; arrays := arrays s;
     localStorage := localStorage s; clockReads := clockReads s;
     randomReads := randomReads s; downloads := downloads s;
     alerts := alerts s; navigation := n |}.

(** The array a reference names. *)
Definition array_at (s : State) (l : loc) : list AuditEntry :=
  default [] (arrays s !! l).

(** The content of [this.auditLog]. *)
Definition log (s : State) : list AuditEntry := array_at s (auditLog s).

(** ** Computations: state and exceptions *)

Inductive Outcome (A : Type) :=
| Ok (a : A) (s : State)
| Threw (e : Error) (s : State).
Arguments Ok {A} a s.
Arguments Threw {A} e s.

Definition M (A : Type) : Type := State → Outcome A.

Definition final {A} (o : Outcome A) : State :=
  match o with
  | Ok _ s => s
  | Threw _ s => s
  end.

Definition returned {A} (o : Outcome A) : option A :=
  match o with
  | Ok a _ => Some a
  | Threw _ _ => None
  end.

Global Instance M_ret : MRet M := λ A a s, Ok a s.
Global Instance M_bind : MBind M := λ A B f m s,
  match m s with
  | Ok a s' => f a s'
  | Threw e s' => Threw e s'
  end.

Definition throw {A} (e : Error) : M A := λ s, Threw e s.
Definition gets {A} (f : State → A) : M A := λ s, Ok (f s) s.
Definition modify (f : State → State) : M unit := λ s, Ok tt (f s).

(** [try { body } catch (e) { handler(e) }] *)
Definition try_catch {A} (body : M A) (handler : Error → M A) : M A := λ s,
  match body s with
  | Ok a s' => Ok a s'
  | Threw e s' => handler e s'
  end.

Definition lift {A} (r : Error + A) : M A :=
  match r with
  | inl e => throw e
  | inr a => mret a
  end.

(** *** Arrays *)

(** A location no live reference uses. *)
Definition fresh_loc (s : State) : loc :=
  fresh ({[auditLog s]} ∪ dom (arrays s)).

Definition array_new (content : list AuditEntry) : M loc := λ s,
  let l := fresh_loc s in
  Ok l (set_arrays (<[l := content]> (arrays s)) s).

Definition array_read (l : loc) : M (list AuditEntry) :=
  gets (λ s, array_at s l).

(** In-place update of the array at [l]. *)
Definition array_write (l : loc) (content : list AuditEntry) : M unit :=
  modify (λ s, set_arrays (<[l := content]> (arrays s)) s).

(** [a.push(e)] *)
Definition array_push (l : loc) (e : AuditEntry) : M unit :=
  content ← array_read l; array_write l (content ++ [e]).

(** [a.slice(-n)]: a new array with the last [n] elements. *)
Definition slice_last (n : nat) (content : list AuditEntry) : list AuditEntry :=
  drop (length content - n) content.

Definition array_slice_last (l : loc) (n : nat) : M loc :=
  content ← array_read l; array_new (slice_last n content).

(** [[...a]] *)
Definition array_copy (l : loc) : M loc :=
  content ← array_read l; array_new content.

(** [a.filter(p)] *)
Definition array_filter (p : AuditEntry → bool) (l : loc) : M loc :=
  content ← array_read l; array_new (List.filter p content).

(** [a.sort(cmp)], for a comparator given by the sign test [cmp x y <= 0]
    ("[x] may stay before [y]").  The sort is stable (ES2019); it is
    modelled by insertion from the right, which for a consistent comparator
    gives the order the language fixes. *)
Fixpoint sort_insert (le : AuditEntry → AuditEntry → bool) (x : AuditEntry)
    (sorted : list AuditEntry) : list AuditEntry :=
  match sorted with
  | [] => [x]
  | y :: rest => if le x y then x :: y :: rest else y :: sort_insert le x rest
  end.

Definition sort_by (le : AuditEntry → AuditEntry → bool)
    (content : list AuditEntry) : list AuditEntry :=
  foldr (sort_insert le) [] content.

Definition array_sort (le : AuditEntry → AuditEntry → bool) (l : loc) : M loc :=
  content ← array_read l; array_write l (sort_by le content);; mret l.

(** *** localStorage *)

Definition getItem (k : string) : M (option Text) :=
  gets (λ s, localStorage s !! k).

Definition setItem (k : string) (t : Text) : M unit :=
  modify (λ s, set_localStorage (<[k := t]> (localStorage s)) s).

Definition removeItem (k : string) : M unit :=
  modify (λ s, set_localStorage (delete k (localStorage s)) s).

(** ** The methods of AuthManager *)

(** The filters of [getAuditLog], given as strings; an absent property is
    [None]. *)
Record Filters := {
  filter_userId : option string;
  filter_event : option string;
  filter_startDate : option string;
  filter_endDate : option string;
}.

(** [{}] *)
Definition no_filters : Filters :=
  {| filter_userId := None; filter_event := None;
     filter_startDate := None; filter_endDate := None |}.

(** [if (filters.k)]: the filter applies when the string is not empty. *)
Definition given (f : option string) : option string :=
  match f with
  | Some s => if decide (s = EmptyString) then None else Some s
  | None => None
  end.

(** [v === s] for a string [s] *)
Definition strict_eq_str (v : JSValue) (s : string) : bool :=
  match v with
  | JStr s' => bool_decide (s' = s)
  | _ => false
  end.

Definition session_max_age : Z := 24 * 60 * 60 * 1000.

Definition AUDIT_CAP : nat := 1000.

Section AuthManager.
Context (env : Env).

(** [Date.now()], and the instant of [new Date()] *)
Definition Date_now : M Z := λ s,
  Ok (clock env (clockReads s)) (set_clockReads (S (clockReads s)) s).

Definition Math_random : M string := λ s,
  Ok (random env (randomReads s)) (set_randomReads (S (randomReads s)) s).

(** [new Date(v).getTime()], [None] for [NaN] *)
Definition Date_getTime (v : JSValue) : option Z :=
  match v with
  | JUndefined => None
  | JNull => Some 0%Z
  | JBool b => Some (if b then 1 else 0)%Z
  | JNum n =>
      if (Z.abs n <=? 8640000000000000)%Z then Some n else None
  | JStr s => Date_parse env s
  | JArr _ | JObj _ => Date_parse env (ToString v)
  end.

(** [new Date().toISOString().split('T')[0]] *)
Definition today : M string :=
  t ← Date_now; mret (first_segment "T" (toISOString env t)).

Definition logAudit (event : string) (data : JSValue) : M AuditEntry :=
  let payload := match data with JUndefined => JObj [] | _ => data end in
  t_id ← Date_now;
  r ← Math_random;
  t ← Date_now;
  cu ← gets currentUser;
  let auditEntry :=
    {| entry_id := "audit-" +:+ pretty t_id +:+ "-" +:+ r;
       timestamp := toISOString env t;
       event := event;
       userId := js_or (get_opt cu "username") (JStr "anonymous");
       userRole := js_or (get_opt cu "role") (JStr "guest");
       userAgent := navigator_userAgent env;
       ip := "127.0.0.1";
       path := location_pathname env +:+ location_hash env;
       data := payload |} in
  a ← gets auditLog;
  array_push a auditEntry;;
  content ← array_read a;
  (if decide (AUDIT_CAP < length content)%nat
   then a' ← array_slice_last a AUDIT_CAP; modify (set_auditLog a')
   else mret tt : M unit);;
  a ← gets auditLog;
  content ← array_read a;
  setItem "fw-audit-log" (JSON_stringify (log_to_json content));;
  mret auditEntry.

Definition setSession (username role name twoFactor : JSValue) : M unit :=
  let twoFactor :=
    match twoFactor with JUndefined => JBool false | _ => twoFactor end in
  t ← Date_now;
  t_id ← Date_now;
  let session :=
    JObj [("username", username); ("role", role); ("name", name);
          ("timestamp", JStr (toISOString env t));
          ("sessionId", JStr ("fw-" +:+ pretty t_id));
          ("twoFactor", twoFactor)] in
  setItem "fw-auth" (JSON_stringify session);;
  modify (set_currentUser session);;
  logAudit "session_created"
    (JObj [("userId", username); ("role", role); ("twoFactor", twoFactor)]);;
  mret tt.

Definition clearSession : M unit :=
  removeItem "fw-auth";;
  modify (set_currentUser JNull).

Definition redirectToLogin (message : string) : M unit :=
  setItem "fw-auth-redirect" (Verbatim (location_href env));;
  setItem "fw-auth-message" (Verbatim message);;
  modify (set_navigation (Some "login.html")).

Definition logout (reason : string) : M unit :=
  logAudit "user_logout" (JObj [("reason", JStr reason)]);;
  clearSession;;
  redirectToLogin "Please log in to continue".

Definition loadSession : M unit :=
  sessionData ← getItem "fw-auth";
  if text_falsy sessionData then mret tt
  else
    try_catch
      (v ← lift (JSON_parse (default (Verbatim EmptyString) sessionData));
       modify (set_currentUser v);;
       cu ← gets currentUser;
       u ← lift (get_prop cu "username");
       cu ← gets currentUser;
       r ← lift (get_prop cu "role");
       logAudit "session_loaded" (JObj [("userId", u); ("role", r)]);;
       now ← Date_now;
       cu ← gets currentUser;
       ts ← lift (get_prop cu "timestamp");
       match Date_getTime ts with
       | Some t =>
           if decide (now - t > session_max_age)%Z
           then logout "Session expired"
           else mret tt
       | None => mret tt
       end)
      (λ e, clearSession).

Definition hasPermission (permission : string) : M bool :=
  cu ← gets currentUser;
  if negb (truthy cu) then mret false
  else
    r ← lift (get_prop cu "role");
    match roles_get (ToString r) with
    | Missing => mret false
    | Inherited k =>
        throw (TypeError "Cannot read properties of undefined (reading 'includes')")
    | OwnRole role =>
        if includes (permissions role) "*" then mret true
        else if includes (permissions role) permission then mret true
        else
          let category := first_segment colon permission in
          if negb (bool_decide (category = EmptyString))
          then mret (includes (permissions role) (category +:+ ":*"))
          else mret false
    end.

Definition showError (message : string) : M unit :=
  modify (λ s, set_alerts (alerts s ++ ["Error: " +:+ message]) s).

Definition requirePermission (permission action : string) : M bool :=
  ok ← hasPermission permission;
  if negb ok then
    showError ("You don't have permission to " +:+ action +:+
               ". Required: " +:+ permission);;
    cu ← gets currentUser;
    logAudit "permission_denied"
      (JObj [("permission", JStr permission); ("action", JStr action);
             ("userId", get_opt cu "username")]);;
    mret false
  else mret true.

(** [new Date(b.timestamp) - new Date(a.timestamp) <= 0]; a [NaN]
    difference counts as zero. *)
Definition newest_first (a b : AuditEntry) : bool :=
  match Date_parse env (timestamp b), Date_parse env (timestamp a) with
  | Some tb, Some ta => bool_decide (tb - ta ≤ 0)%Z
  | _, _ => true
  end.

(** [new Date(log.timestamp) >= start] and [<= end]; false on [NaN]. *)
Definition not_before (start : string) (e : AuditEntry) : bool :=
  match Date_parse env (timestamp e), Date_parse env start with
  | Some t, Some t0 => bool_decide (t0 ≤ t)%Z
  | _, _ => false
  end.

Definition not_after (stop : string) (e : AuditEntry) : bool :=
  match Date_parse env (timestamp e), Date_parse env stop with
  | Some t, Some t1 => bool_decide (t ≤ t1)%Z
  | _, _ => false
  end.

Definition getAuditLog (filters : Filters) : M loc :=
  a ← gets auditLog;
  logs ← array_copy a;
  logs ← match given (filter_userId filters) with
         | Some u => array_filter (λ e, strict_eq_str (userId e) u) logs
         | None => mret logs
         end;
  logs ← match given (filter_event filters) with
         | Some ev => array_filter (λ e, bool_decide (event e = ev)) logs
         | None => mret logs
         end;
  logs ← match given (filter_startDate filters) with
         | Some d => array_filter (not_before d) logs
         | None => mret logs
         end;
  logs ← match given (filter_endDate filters) with
         | Some d => array_filter (not_after d) logs
         | None => mret logs
         end;
  array_sort newest_first logs.

Definition downloadFile (content : Text) (type name : string) : M unit :=
  modify (λ s, set_downloads
                 (downloads s ++
                  [{| filename := name; mime := type; body := content |}]) s).

(** One cell of the CSV export: the text between double quotes, with
    every double quote of the text written twice. *)
Fixpoint double_quotes (s : string) : string :=
  match s with
  | EmptyString => EmptyString
  | String c r =>
      if decide (c = dquote) then String dquote (String dquote (double_quotes r))
      else String c (double_quotes r)
  end.

Definition csv_cell (s : string) : string :=
  String dquote (double_quotes s +:+ str1 dquote).

Definition csv_headers : list string :=
  ["Timestamp"; "Event"; "User ID"; "User Role"; "Path"; "Data"].

Definition csv_row (e : AuditEntry) : list string :=
  [timestamp e; event e; ToString (userId e); ToString (userRole e);
   path e; JSON_stringify_string (data e)].

Definition csv_of (logs : list AuditEntry) : string :=
  join (str1 newline)
    (List.map (λ row, join "," (List.map csv_cell row))
       (csv_headers :: List.map csv_row logs)).

Definition exportAuditLog (format : string) : M unit :=
  logs ← getAuditLog no_filters;
  entries ← array_read logs;
  (if decide (format = "json") then
     day ← today;
     downloadFile (JSON_stringify (log_to_json entries)) "application/json"
       ("audit-log-" +:+ day +:+ ".json")
   else if decide (format = "csv") then
     day ← today;
     downloadFile (Verbatim (csv_of entries)) "text/csv"
       ("audit-log-" +:+ day +:+ ".csv")
   else mret tt : M unit);;
  logAudit "audit_log_exported"
    (JObj [("format", JStr format);
           ("entryCount", JNum (Z.of_nat (length entries)))]);;
  mret tt.

(** [this.roles[this.currentUser.role]] has a truthy [dashboardAccess] *)
Definition role_has_dashboard (cu : JSValue) : bool :=
  match roles_get (ToString (get_opt cu "role")) with
  | OwnRole role => dashboardAccess role
  | Inherited _ | Missing => false
  end.

(** [!this.currentUser || !this.hasPermission(p)] *)
Definition lacks (p : string) : M bool :=
  cu ← gets currentUser;
  if negb (truthy cu) then mret true
  else ok ← hasPermission p; mret (negb ok).

Definition protectRoutes : M unit :=
  let path := location_pathname env in
  stop ←
    (if ends_with "dashboard.html" path || str_includes "dashboard/" path
     then
       denied ← lacks "view:dashboard";
       if (denied : bool) then
         redirectToLogin "Please log in to access the dashboard";;
         mret true
       else
         cu ← gets currentUser;
         if role_has_dashboard cu then mret false
         else
           redirectToLogin "Insufficient permissions for dashboard access";;
           mret true
     else mret false : M bool);
  if (stop : bool) then mret tt
  else if ends_with "audit.html" path then
    denied ← lacks "audit:full";
    if (denied : bool)
    then redirectToLogin "Audit access requires elevated permissions"
    else mret tt
  else mret tt.

(** [init()].  [setupUI] and [startSessionTimer] touch only the
    document and a timer that shows a warning; they are left out. *)
Definition init : M unit :=
  loadSession;; protectRoutes.

(** [loadStoredAuditLog()] on the stored text: the array it returns, which
    is empty when the key is absent or its text is empty or not JSON.
    When the text is JSON for something else than an array of audit entries
    the method returns that value and the constructor goes on with it; the
    states of this development, whose log is an array of entries, do not
    represent such a manager, and the result is [None]. *)
Definition loadStoredAuditLog (stored : option Text) : option (list AuditEntry) :=
  if text_falsy stored then Some []
  else match JSON_parse (default (Verbatim EmptyString) stored) with
       | inr v => log_of_json v
       | inl _ => Some []
       end.

(** The state the constructor has built when it calls [init()]. *)
Definition constructed (storage : gmap string Text) : option State :=
  entries ← loadStoredAuditLog (storage !! "fw-audit-log");
  Some {| currentUser := JNull; auditLog := 0%nat;
          arrays := {[ 0%nat := entries ]};
          localStorage := storage; clockReads := 0; randomReads := 0;
          downloads := []; alerts := []; navigation := None |}.

(** [new AuthManager()] in a page whose storage is [storage] *)
Definition AuthManager_new (storage : gmap string Text) : option (Outcome unit) :=
  s ← constructed storage; Some (init s).

(** The calls a page can make on the manager. *)
Inductive Call :=
| call_logAudit (event : string) (data : JSValue)
| call_getAuditLog (filters : Filters)
| call_exportAuditLog (format : string)
| call_setSession (username role name twoFactor : JSValue)
| call_loadSession
| call_logout (reason : string)
| call_clearSession
| call_hasPermission (permission : string)
| call_requirePermission (permission action : string).

(** The state a call leaves, whether it returns or throws. *)
Definition perform (c : Call) (s : State) : State :=
  match c with
  | call_logAudit ev d => final (logAudit ev d s)
  | call_getAuditLog f => final (getAuditLog f s)
  | call_exportAuditLog fmt => final (exportAuditLog fmt s)
  | call_setSession u r n t => final (setSession u r n t s)
  | call_loadSession => final (loadSession s)
  | call_logout reason => final (logout reason s)
  | call_clearSession => final (clearSession s)
  | call_hasPermission p => final (hasPermission p s)
  | call_requirePermission p a => final (requirePermission p a s)
  end.

(** The states of a manager constructed over [storage]. *)
Inductive reachable (storage : gmap string Text) : State → Prop :=
| reachable_new s :
    AuthManager_new storage = Some (Ok tt s) → reachable storage s
| reachable_call s c :
    reachable storage s → reachable storage (perform c s).

(** The entries [getAuditLog(filters)] returns for a log [entries]. *)
Definition keep_if (f : option string) (p : string → AuditEntry → bool)
    (entries : list AuditEntry) : list AuditEntry :=
  match given f with
  | Some x => List.filter (p x) entries
  | None => entries
  end.

Definition query (filters : Filters) (entries : list AuditEntry) : list AuditEntry :=
  sort_by newest_first
    (keep_if (filter_endDate filters) not_after
    (keep_if (filter_startDate filters) not_before
    (keep_if (filter_event filters) (λ ev e, bool_decide (event e = ev))
    (keep_if (filter_userId filters) (λ u e, strict_eq_str (userId e) u)
       entries)))).

End AuthManager.

(** ** The session timer, the click handler and the API client *)

(** The callback [startSessionTimer] runs every minute; [true] when it
    shows the expiry warning ([showWarning] only writes to the console).
    A [NaN] session age makes both comparisons false. *)
Definition sessionTimerTick (env : Env) : M bool :=
  cu ← gets currentUser;
  if negb (truthy cu) then mret false
  else
    now ← Date_now env;
    ts ← lift (get_prop cu "timestamp");
    match Date_getTime env ts with
    | Some t =>
        let sessionAge := (now - t)%Z in
        let remaining := (session_max_age - sessionAge)%Z in
        mret (bool_decide (remaining < 5 * 60 * 1000)%Z
              && bool_decide (remaining > 4 * 60 * 1000)%Z)
    | None => mret false
    end.

(** [s.trim()], for strings of 8-bit characters: white space is tab, line
    feed, vertical tab, form feed, carriage return, space and no-break
    space. *)
Definition js_space (c : ascii) : bool :=
  Ascii.is_space c || bool_decide (c = "160"%char).

Fixpoint trim_start (s : string) : string :=
  match s with
  | EmptyString => EmptyString
  | String c r => if js_space c then trim_start r else s
  end.

Definition trim (s : string) : string :=
  String.rev (trim_start (String.rev (trim_start s))).

(** What the click handler reads from the element with a
    [data-permission] attribute that was clicked. *)
Record Element := {
  data_permission : string;
  data_action_description : option string;
  data_action : option string;
  tagName : string;
  textContent : string;
}.

(** [element.getAttribute(a) || fallback] *)
Definition attribute_or (a : option string) (fallback : string) : string :=
  match given a with
  | Some v => v
  | None => fallback
  end.

(** The click listener on the document, for a click inside [button];
    [true] when it cancels the event ([preventDefault],
    [stopPropagation]). *)
Definition on_click (env : Env) (button : Element) : M bool :=
  let permission := data_permission button in
  let action :=
    attribute_or (data_action_description button) "perform this action" in
  ok ← requirePermission env permission action;
  if negb ok then mret true
  else
    logAudit env "action_performed"
      (JObj [("action", JStr (attribute_or (data_action button) "unknown"));
             ("permission", JStr permission);
             ("element", JStr (tagName button));
             ("text", JStr (trim (textContent button)))]);;
    mret false.

(** [endpointPermissions] of [FW_API.request]: the own properties. *)
Definition endpointPermissions : gmap string string :=
  <["/api/artifacts/create" := "write:artifacts"]>
  (<["/api/artifacts/update" := "edit:metadata"]>
  (<["/api/artifacts/delete" := "delete:artifacts"]>
  (<["/api/reports/generate" := "generate:reports"]>
  (<["/api/deaccessions/propose" := "propose:deaccession"]>
  (<["/api/deaccessions/approve" := "approve:deaccession"]>
  (<["/api/audit/logs" := "audit:full"]> ∅)))))).

(** What the promise [FW_API.request] returns resolves with: an error
    object, at once, or the response with status 200, 300 ms later. *)
Inductive ApiResult :=
| ApiError (status : Z) (error : string)
| ApiPending.

(** [FW_API.request(endpoint, data, method)] up to the value it returns; a
    throw is the rejection of the promise an async function returns.
    [requiredPermission] is [Some p] for an endpoint of the table and
    [None] for [undefined]. *)
Definition request_with (env : Env) (requiredPermission : option string)
    (endpoint : string) (data : JSValue) (method : string) : M ApiResult :=
  let data := match data with JUndefined => JObj [] | _ => data end in
  let proceed : M ApiResult :=
    logAudit env "api_request"
      (JObj [("endpoint", JStr endpoint); ("method", JStr method);
             ("dataSize",
              JNum (Z.of_nat (String.length (JSON_text data))))]);;
    mret ApiPending in
  cu ← gets currentUser;
  if negb (truthy cu) then mret (ApiError 401 "Authentication required")
  else
    match requiredPermission with
    | Some p =>
        ok ← hasPermission p;
        if negb ok then
          cu ← gets currentUser;
          logAudit env "api_permission_denied"
            (JObj [("endpoint", JStr endpoint);
                   ("requiredPermission", JStr p);
                   ("userId", get_opt cu "username")]);;
          mret (ApiError 403 "Insufficient permissions")
        else proceed
    | None => proceed
    end.

(** [endpointPermissions[endpoint]] also finds the members of
    [Object.prototype]; the permission required is then a function, which
    this development does not cover: [None]. *)
Definition FW_API_request (env : Env) (endpoint : string) (data : JSValue)
    (method : string) : option (M ApiResult) :=
  match endpointPermissions !! endpoint with
  | Some p => Some (request_with env (Some p) endpoint data method)
  | None =>
      if decide (endpoint ∈ Object_prototype_keys) then None
      else Some (request_with env None endpoint data method)
  end.

(** * Vocabulary of the properties *)

(** The entry [logAudit(event, data)] builds in state [s]. *)
Definition new_entry (env : Env) (s : State) (ev : string) (d : JSValue) : AuditEntry :=
  {| entry_id := "audit-" +:+ pretty (clock env (clockReads s)) +:+ "-" +:+
                 random env (randomReads s);
     timestamp := toISOString env (clock env (S (clockReads s)));
     event := ev;
     userId := js_or (get_opt (currentUser s) "username") (JStr "anonymous");
     userRole := js_or (get_opt (currentUser s) "role") (JStr "guest");
     userAgent := navigator_userAgent env;
     ip := "127.0.0.1";
     path := location_pathname env +:+ location_hash env;
     data := match d with JUndefined => JObj [] | _ => d end |}.

(** What one append does to the state. *)
Record appended (s : State) (e : AuditEntry) (s' : State) : Prop := {
  appended_log : log s' = slice_last AUDIT_CAP (log s ++ [e]);
  appended_user : currentUser s' = currentUser s;
  appended_storage :
    localStorage s' =
    <["fw-audit-log" := Stringified (log_to_json (log s'))]> (localStorage s);
  appended_clock : clockReads s' = (clockReads s + 2)%nat;
  appended_random : randomReads s' = S (randomReads s);
  appended_downloads : downloads s' = downloads s;
  appended_alerts : alerts s' = alerts s;
  appended_navigation : navigation s' = navigation s;
  appended_others :
    ∀ a, a ≠ auditLog s → a ∈ dom (arrays s) → arrays s' !! a = arrays s !! a;
}.

(** The log [old] after the entries [added] have been appended to it:
    [old] followed by [added], without the entries at its front that make
    it longer than 1000; [old] itself when nothing was appended. *)
Definition after_appending (old added : list AuditEntry) : list AuditEntry :=
  match added with
  | [] => old
  | _ => drop (length old + length added - 1000) (old ++ added)
  end.

(** [s'] has the log of [s] after at most [n] appends. *)
Definition log_grows (n : nat) (s s' : State) : Prop :=
  ∃ added, (length added ≤ n)%nat ∧ log s' = after_appending (log s) added.

(** A computation every run of which appends at most [n] entries. *)
Definition growing {A} (n : nat) (m : M A) : Prop :=
  ∀ s, log_grows n s (final (m s)).

(** The number of entries a call appends, at most: [loadSession] logs
    the session it loads and then, when the session has expired, the
    logout. *)
Definition appends (c : Call) : nat :=
  match c with
  | call_loadSession => 2
  | call_logAudit _ _ | call_exportAuditLog _ | call_setSession _ _ _ _
  | call_logout _ | call_requirePermission _ _ => 1
  | call_getAuditLog _ | call_clearSession | call_hasPermission _ => 0
  end.

(** The event of the entry a call appends in every state, for the calls
    that have one. *)
Definition logs_event (c : Call) : option string :=
  match c with
  | call_logAudit ev _ => Some ev
  | call_exportAuditLog _ => Some "audit_log_exported"
  | call_setSession _ _ _ _ => Some "session_created"
  | call_logout _ => Some "user_logout"
  | _ => None
  end.

(** [s'] differs from [s] only by arrays allocated since [s]: the log
    reference, the array it names, every array of [s] and everything else
    are as in [s]. *)
Record untouched (s s' : State) : Prop := {
  untouched_auditLog : auditLog s' = auditLog s;
  untouched_arrays :
    ∀ a, a = auditLog s ∨ a ∈ dom (arrays s) → arrays s' !! a = arrays s !! a;
  untouched_user : currentUser s' = currentUser s;
  untouched_storage : localStorage s' = localStorage s;
  untouched_clock : clockReads s' = clockReads s;
  untouched_random : randomReads s' = randomReads s;
  untouched_downloads : downloads s' = downloads s;
  untouched_alerts : alerts s' = alerts s;
  untouched_navigation : navigation s' = navigation s;
}.

(** A location that names no array of [s]. *)
Definition private (s : State) (l : loc) : Prop :=
  l ≠ auditLog s ∧ l ∉ dom (arrays s).

(** [m], run in [s0], returns a reference to an array holding [content],
    allocated after [s], and leaves [s] untouched. *)
Definition yields (s : State) (content : list AuditEntry) (m : M loc)
    (s0 : State) : Prop :=
  ∃ l s', m s0 = Ok l s' ∧ untouched s s' ∧ private s l
          ∧ arrays s' !! l = Some content.

(** The file [exportAuditLog(format)] hands to the browser, if any, for the
    clock reading [t] and the entries [entries]. *)
Definition exported_file (env : Env) (format : string) (t : Z)
    (entries : list AuditEntry) : option Download :=
  let day := first_segment "T" (toISOString env t) in
  if decide (format = "json") then
    Some {| filename := "audit-log-" +:+ day +:+ ".json";
            mime := "application/json";
            body := Stringified (log_to_json entries) |}
  else if decide (format = "csv") then
    Some {| filename := "audit-log-" +:+ day +:+ ".csv";
            mime := "text/csv";
            body := Verbatim (csv_of entries) |}
  else None.

(** The payload of the entry the export logs about itself. *)
Definition export_payload (format : string) (count : nat) : JSValue :=
  JObj [("format", JStr format); ("entryCount", JNum (Z.of_nat count))].

(** A run of [logAudit] calls, one per element of [calls], returning the
    entries created, in order. *)
Definition logAudit_each (env : Env) (calls : list (string * JSValue)) :
    M (list AuditEntry) :=
  mapM (λ c, logAudit env c.1 c.2) calls.

(** [session.sessionId] *)
Definition sessionId (session : JSValue) : JSValue := get_opt session "sessionId".

(** A value that [JSON.stringify] writes in full: no [undefined] in it. *)
Fixpoint json_safe (v : JSValue) : bool :=
  match v with
  | JUndefined => false
  | JArr items => forallb json_safe items
  | JObj props => forallb (λ kv, let (_, x) := kv : string * JSValue in json_safe x) props
  | _ => true
  end.

Definition entry_safe (e : AuditEntry) : bool :=
  json_safe (userId e) && json_safe (userRole e) && json_safe (data e).

(** A reader of CSV in the standard format (RFC 4180, with line feeds as
    record separators): fields are separated by commas; a field that starts
    with a double quote runs to the next double quote that is not followed
    by a second one, and two double quotes in it stand for one. *)
Inductive CsvState :=
| FieldStart        (* at the start of a field *)
| InPlain           (* in a field that did not start with a double quote *)
| InQuoted          (* in a quoted field *)
| AfterQuote.       (* after a double quote met in a quoted field *)

Fixpoint csv_read (st : CsvState) (field : string) (row : list string)
    (input : string) : option (list (list string)) :=
  match input with
  | EmptyString =>
      match st with
      | InQuoted => None
      | _ => Some [row ++ [field]]
      end
  | String c rest =>
      let end_field := csv_read FieldStart EmptyString (row ++ [field]) rest in
      let end_row :=
        cons (row ++ [field]) <$> csv_read FieldStart EmptyString [] rest in
      match st with
      | FieldStart =>
          if decide (c = dquote) then csv_read InQuoted field row rest
          else if decide (c = comma) then end_field
          else if decide (c = newline) then end_row
          else csv_read InPlain (field +:+ str1 c) row rest
      | InPlain =>
          if decide (c = dquote) then None
          else if decide (c = comma) then end_field
          else if decide (c = newline) then end_row
          else csv_read InPlain (field +:+ str1 c) row rest
      | InQuoted =>
          if decide (c = dquote) then csv_read AfterQuote field row rest
          else csv_read InQuoted (field +:+ str1 c) row rest
      | AfterQuote =>
          if decide (c = dquote)
          then csv_read InQuoted (field +:+ str1 dquote) row rest
          else if decide (c = comma) then end_field
          else if decide (c = newline) then end_row
          else None
      end
  end.

Definition csv_parse (input : string) : option (list (list string)) :=
  csv_read FieldStart EmptyString [] input.

(** ** A reader of JSON texts

    A reader of the JSON grammar (ECMA-404), with white space allowed
    between tokens, for the values of this development: a number is an
    integer without fraction or exponent, and a [\u] escape names a
    character below 256.  It is the yardstick for the Data column of the
    CSV export: the text written there is JSON for the payload when this
    reader gives the payload back. *)

(** The value of a decimal digit and of a hexadecimal digit. *)

Definition digit_of (c : ascii) : option N :=
  let n := N_of_ascii c in
  if (48 <=? n)%N && (n <=? 57)%N then Some (n - 48)%N else None.

Definition hex_of (c : ascii) : option N :=
  let n := N_of_ascii c in
  if (48 <=? n)%N && (n <=? 57)%N then Some (n - 48)%N
  else if (97 <=? n)%N && (n <=? 102)%N then Some (n - 87)%N
  else if (65 <=? n)%N && (n <=? 70)%N then Some (n - 55)%N
  else None.

(** White space between tokens: space, tab, line feed, carriage return. *)
Definition is_ws (c : ascii) : bool :=
  bool_decide (c = " "%char) || bool_decide (c = "009"%char)
  || bool_decide (c = "010"%char) || bool_decide (c = "013"%char).

Fixpoint skip_ws (s : string) : string :=
  match s with
  | String c r => if is_ws c then skip_ws r else s
  | EmptyString => s
  end.

(** The rest of [s] after its prefix [t]. *)
Fixpoint after (t s : string) : option string :=
  match t, s with
  | EmptyString, _ => Some s
  | String a t', String b s' => if decide (a = b) then after t' s' else None
  | String _ _, EmptyString => None
  end.

(** The number [acc] continued by the digits at the start of [s]. *)
Fixpoint read_digits (acc : N) (s : string) : N * string :=
  match s with
  | String c r =>
      match digit_of c with
      | Some d => read_digits (acc * 10 + d) r
      | None => (acc, s)
      end
  | EmptyString => (acc, s)
  end.

(** [0], or a digit other than [0] followed by digits. *)
Definition read_nat (s : string) : option (N * string) :=
  match s with
  | String c r =>
      match digit_of c with
      | Some d => if (d =? 0)%N then Some (0%N, r) else Some (read_digits d r)
      | None => None
      end
  | EmptyString => None
  end.

(** An integer, with an optional minus sign. *)
Definition read_int (s : string) : option (Z * string) :=
  match s with
  | String c r =>
      if decide (c = "-"%char)
      then '(n, r') ← read_nat r; Some (- Z.of_N n, r')%Z
      else '(n, r') ← read_nat s; Some (Z.of_N n, r')
  | EmptyString => None
  end.

(** The characters of a string, after its opening double quote, up to the
    closing one. *)
Fixpoint read_string (acc : string) (s : string) : option (string * string) :=
  match s with
  | EmptyString => None
  | String c r =>
      if decide (c = dquote) then Some (acc, r)
      else if decide (c = backslash) then
        match r with
        | String e r1 =>
            if decide (e = dquote) then read_string (acc +:+ str1 dquote) r1
            else if decide (e = backslash) then read_string (acc +:+ str1 backslash) r1
            else if decide (e = "/"%char) then read_string (acc +:+ "/") r1
            else if decide (e = "b"%char) then read_string (acc +:+ str1 "008"%char) r1
            else if decide (e = "f"%char) then read_string (acc +:+ str1 "012"%char) r1
            else if decide (e = "n"%char) then read_string (acc +:+ str1 "010"%char) r1
            else if decide (e = "r"%char) then read_string (acc +:+ str1 "013"%char) r1
            else if decide (e = "t"%char) then read_string (acc +:+ str1 "009"%char) r1
            else if decide (e = "u"%char) then
              match r1 with
              | String h1 (String h2 (String h3 (String h4 r2))) =>
                  match hex_of h1, hex_of h2, hex_of h3, hex_of h4 with
                  | Some a, Some b, Some c, Some d =>
                      let n := (((a * 16 + b) * 16 + c) * 16 + d)%N in
                      if (n <? 256)%N
                      then read_string (acc +:+ str1 (ascii_of_N n)) r2
                      else None
                  | _, _, _, _ => None
                  end
              | _ => None
              end
            else None
        | EmptyString => None
        end
      else if (N_of_ascii c <? 32)%N then None
      else read_string (acc +:+ str1 c) r
  end.

(** A value at the start of [s], with the rest of [s]; the elements of an
    array after its opening bracket; the members of an object after its
    opening brace.  [fuel] bounds the nesting and the number of elements
    read. *)
Fixpoint read_value (fuel : nat) (s : string) : option (JSValue * string) :=
  match fuel with
  | O => None
  | S fuel =>
      match skip_ws s with
      | EmptyString => None
      | String c r =>
          if bool_decide (c = "-"%char) || bool_decide (is_Some (digit_of c)) then
            '(n, r') ← read_int (String c r); Some (JNum n, r')
          else if decide (c = dquote) then
            '(str, r') ← read_string EmptyString r; Some (JStr str, r')
          else if decide (c = "["%char) then
            match skip_ws r with
            | String c' r' =>
                if decide (c' = "]"%char) then Some (JArr [], r')
                else read_items fuel [] r
            | EmptyString => None
            end
          else if decide (c = "{"%char) then
            match skip_ws r with
            | String c' r' =>
                if decide (c' = "}"%char) then Some (JObj [], r')
                else read_members fuel [] r
            | EmptyString => None
            end
          else
            match after "null" (String c r), after "true" (String c r),
                  after "false" (String c r) with
            | Some r', _, _ => Some (JNull, r')
            | _, Some r', _ => Some (JBool true, r')
            | _, _, Some r' => Some (JBool false, r')
            | _, _, _ => None
            end
      end
  end
with read_items (fuel : nat) (acc : list JSValue) (s : string) :
    option (JSValue * string) :=
  match fuel with
  | O => None
  | S fuel =>
      '(v, r) ← read_value fuel s;
      match skip_ws r with
      | String c r' =>
          if decide (c = ","%char) then read_items fuel (acc ++ [v]) r'
          else if decide (c = "]"%char) then Some (JArr (acc ++ [v]), r')
          else None
      | EmptyString => None
      end
  end
with read_members (fuel : nat) (acc : list (string * JSValue)) (s : string) :
    option (JSValue * string) :=
  match fuel with
  | O => None
  | S fuel =>
      match skip_ws s with
      | String c r =>
          if decide (c = dquote) then
            '(k, r1) ← read_string EmptyString r;
            match skip_ws r1 with
            | String c1 r2 =>
                if decide (c1 = ":"%char) then
                  '(v, r3) ← read_value fuel r2;
                  match skip_ws r3 with
                  | String c3 r4 =>
                      if decide (c3 = ","%char)
                      then read_members fuel (acc ++ [(k, v)]) r4
                      else if decide (c3 = "}"%char)
                      then Some (JObj (acc ++ [(k, v)]), r4)
                      else None
                  | EmptyString => None
                  end
                else None
            | EmptyString => None
            end
          else None
      | EmptyString => None
      end
  end.

(** The value the JSON text [s] stands for; [None] when [s] is not a JSON
    text. *)
Definition json_read (s : string) : option JSValue :=
  '(v, r) ← read_value (S (String.length s)) s;
  if decide (skip_ws r = EmptyString) then Some v else None.

(** What may follow a number: not a digit. *)
Definition delimited (rest : string) : Prop :=
  match rest with
  | String c _ => digit_of c = None
  | EmptyString => True
  end.

(** The texts of the members of an object in [JSON_text], and the members
    in [json_norm]. *)
Fixpoint member_texts (ps : list (string * JSValue)) : list string :=
  match ps with
  | [] => []
  | (k, JUndefined) :: rest => member_texts rest
  | (k, x) :: rest => (json_quote k +:+ ":" +:+ JSON_text x) :: member_texts rest
  end.

Fixpoint members_norm (ps : list (string * JSValue)) : list (string * JSValue) :=
  match ps with
  | [] => []
  | (k, JUndefined) :: rest => members_norm rest
  | (k, x) :: rest => (k, json_norm x) :: members_norm rest
  end.

(** The characters a JSON text can start with. *)
Definition starts_value (c : ascii) : bool :=
  bool_decide (c ∈ [dquote; "["; "{"; "n"; "t"; "f"; "-"]%char)
  || bool_decide (is_Some (digit_of c)).

(** [read_value] reads the text of [v], given fuel for its length. *)
Definition reads_back (v : JSValue) : Prop :=
  ∀ fuel rest,
    (String.length (JSON_text v) < fuel)%nat → delimited rest →
    read_value fuel (JSON_text v +:+ rest) = Some (json_norm v, rest).

(** ** Standard CSV, as written

    The quoting of RFC 4180 in the words of the specification: a field is
    wrapped in double quotes, and each double quote inside it is doubled.
    Fields are separated by commas and records by line feeds. *)
Definition quoted_field (field : string) : string :=
  str1 dquote +:+
  String.concat EmptyString
    (List.map (λ c, if decide (c = dquote) then String dquote (str1 dquote)
                    else str1 c)
       (String.list_ascii_of_string field))
  +:+ str1 dquote.

Definition quoted_table (records : list (list string)) : string :=
  String.concat (str1 newline)
    (List.map (λ record, String.concat "," (List.map quoted_field record))
       records).

(** The record of an entry in the CSV export: its timestamp, event, user
    id, user role and path, and a cell that is JSON for its payload.  An
    entry without a payload has the text [undefined] there. *)
Definition exported_record (e : AuditEntry) (record : list string) : Prop :=
  ∃ cell,
    record = [timestamp e; event e; ToString (userId e);
              ToString (userRole e); path e; cell]
    ∧ match data e with
      | JUndefined => cell = "undefined"
      | payload => json_read cell = Some (json_norm payload)
      end.

(** One line of the export. *)
Definition csv_line (row : list string) : string :=
  join "," (List.map csv_cell row).

(** [s.slice(n)] *)
Fixpoint str_drop (n : nat) (s : string) : string :=
  match n, s with
  | O, _ => s
  | S n', String _ r => str_drop n' r
  | S _, EmptyString => EmptyString
  end.

(** The last two characters of [s]. *)
Definition last_two (s : string) : string :=
  str_drop (String.length s - 2) s.

(** An entry passes every filter that is given. *)
Definition matches (env : Env) (filters : Filters) (e : AuditEntry) : bool :=
  match given (filter_userId filters) with
  | Some u => strict_eq_str (userId e) u
  | None => true
  end
  && match given (filter_event filters) with
     | Some ev => bool_decide (event e = ev)
     | None => true
     end
  && match given (filter_startDate filters) with
     | Some d => not_before env d e
     | None => true
     end
  && match given (filter_endDate filters) with
     | Some d => not_after env d e
     | None => true
     end.

(** The instant of an entry, when its timestamp is a date. *)
Definition time_of (env : Env) (e : AuditEntry) : option Z :=
  Date_parse env (timestamp e).

(** [a] is not older than [b]. *)
Definition not_older (env : Env) (a b : AuditEntry) : Prop :=
  ∃ ta tb, time_of env a = Some ta ∧ time_of env b = Some tb ∧ (tb ≤ ta)%Z.

(** The entries of the instant [t]. *)
Definition at_time (env : Env) (t : Z) (e : AuditEntry) : bool :=
  bool_decide (time_of env e = Some t).

(** The state after [redirectToLogin(message)]. *)
Definition redirected (env : Env) (message : string) (s : State) : State :=
  final (redirectToLogin env message s).

(** * Concrete pages

    An environment in which every clock reading of a run falls in the same
    millisecond, 2024-01-02 01:00 UTC, and one whose clock advances by a
    millisecond per reading. *)

Definition demo_now : Z := 1704157200000.
Definition a_day_and_an_hour_earlier : Z := 1704067200000.

Definition demo_env : Env :=
  {| clock := λ _, demo_now;
     random := λ k, "k3x9" +:+ pretty k;
     toISOString := λ t,
       if decide (t = demo_now) then "2024-01-02T01:00:00.000Z"
       else "2024-01-01T00:00:00.000Z";
     Date_parse := λ s,
       if decide (s = "2024-01-02T01:00:00.000Z") then Some demo_now
       else if decide (s = "2024-01-01T00:00:00.000Z")
            then Some a_day_and_an_hour_earlier
            else None;
     navigator_userAgent := "Mozilla/5.0";
     location_pathname := "/index.html";
     location_hash := EmptyString;
     location_href := "https://museum.example/index.html" |}.

Definition ticking_env : Env :=
  {| clock := λ k, (demo_now + Z.of_nat k)%Z;
     random := random demo_env;
     toISOString := toISOString demo_env;
     Date_parse := Date_parse demo_env;
     navigator_userAgent := navigator_userAgent demo_env;
     location_pathname := location_pathname demo_env;
     location_hash := location_hash demo_env;
     location_href := location_href demo_env |}.

(** A manager constructed over an empty storage. *)
Definition fresh_manager : State :=
  {| currentUser := JNull; auditLog := 0%nat; arrays := {[ 0%nat := [] ]};
     localStorage := ∅; clockReads := 0; randomReads := 0;
     downloads := []; alerts := []; navigation := None |}.

(** The session [setSession({username: 'mallory', role: 'constructor',
    name: 'Mallory'})] creates on a fresh manager. *)
Definition session_with_inherited_role : State :=
  final (setSession demo_env (JStr "mallory") (JStr "constructor")
           (JStr "Mallory") JUndefined fresh_manager).

(** An entry as [logAudit] persists it. *)
Definition sample_entry : AuditEntry :=
  {| entry_id := "audit-1704067200000-k3x9a1b2c";
     timestamp := "2024-01-01T00:00:00.000Z";
     event := "api_request";
     userId := JStr "anonymous";
     userRole := JStr "guest";
     userAgent := "Mozilla/5.0";
     ip := "127.0.0.1";
     path := "/index.html";
     data := JObj [("endpoint", JStr "/api/catalog"); ("method", JStr "GET");
                   ("dataSize", JNum 2)] |}.

(** A storage holding a persisted log of [n] entries, and no session. *)
Definition storage_with_log (n : nat) : gmap string Text :=
  {[ "fw-audit-log" := Stringified (log_to_json (replicate n sample_entry)) ]}.

(** A session persisted 25 hours before the page is opened. *)
Definition day_old_session : JSValue :=
  JObj [("username", JStr "alice"); ("role", JStr "curator");
        ("name", JStr "Alice"); ("timestamp", JStr "2024-01-01T00:00:00.000Z");
        ("sessionId", JStr "fw-1704067200000"); ("twoFactor", JBool false)].

Definition page_with_day_old_session : State :=
  {| currentUser := JNull; auditLog := 0%nat; arrays := {[ 0%nat := [] ]};
     localStorage := {[ "fw-auth" := Stringified day_old_session ]};
     clockReads := 0; randomReads := 0;
     downloads := []; alerts := []; navigation := None |}.

(** The page of a visitor whose [fw-auth] key holds the JSON text of an
    empty object. *)
Definition page_with_empty_object_session : State :=
  {| currentUser := JNull; auditLog := 0%nat; arrays := {[ 0%nat := [] ]};
     localStorage := {[ "fw-auth" := Stringified (JObj []) ]};
     clockReads := 0; randomReads := 0;
     downloads := []; alerts := []; navigation := None |}.

Definition page_with_garbled_session : State :=
  {| currentUser := JNull; auditLog := 0%nat; arrays := {[ 0%nat := [] ]};
     localStorage := {[ "fw-auth" := Verbatim "{username: alice" ]};
     clockReads := 0; randomReads := 0;
     downloads := []; alerts := []; navigation := None |}.

(** The log after [requirePermission('approve:deaccession', 'approve
    removal')] on a fresh manager, with nobody logged in: the payload of the
    [permission_denied] entry has [userId: undefined]. *)
Definition denied_anonymous : State :=
  final (requirePermission demo_env "approve:deaccession" "approve removal"
           fresh_manager).

(** A manager on which alice, a curator, has logged in. *)
Definition alice_logged_in : State :=
  final (setSession demo_env (JStr "alice") (JStr "curator") (JStr "Alice")
           JUndefined fresh_manager).

(** A manager whose log holds 1000 entries: the one constructed over a
    persisted log of 1000 entries. *)
Definition manager_at_cap : State :=
  {| currentUser := JNull; auditLog := 0%nat;
     arrays := {[ 0%nat := replicate 1000 sample_entry ]};
     localStorage := storage_with_log 1000; clockReads := 0; randomReads := 0;
     downloads := []; alerts := []; navigation := None |}.

(** A manager on which dana, an administrator, has logged in. *)
Definition dana_logged_in : State :=
  final (setSession demo_env (JStr "dana") (JStr "admin") (JStr "Dana")
           JUndefined fresh_manager).

(** An environment whose clock advances by a minute per reading. *)
Definition minute_env : Env :=
  {| clock := λ k, (demo_now + 60000 * Z.of_nat k)%Z;
     random := random demo_env;
     toISOString := toISOString demo_env;
     Date_parse := Date_parse demo_env;
     navigator_userAgent := navigator_userAgent demo_env;
     location_pathname := location_pathname demo_env;
     location_hash := location_hash demo_env;
     location_href := location_href demo_env |}.

(** A page whose storage holds the session alice has just created. *)
Definition page_with_fresh_session : State :=
  {| currentUser := JNull; auditLog := 0%nat; arrays := {[ 0%nat := [] ]};
     localStorage :=
       {[ "fw-auth" := Stringified (currentUser alice_logged_in) ]};
     clockReads := 0; randomReads := 0;
     downloads := []; alerts := []; navigation := None |}.

(** A button that needs a permission. *)
Definition approve_button : Element :=
  {| data_permission := "approve:deaccession";
     data_action_description := Some "approve removal";
     data_action := Some "approve";
     tagName := "BUTTON";
     textContent := "  Approve  " |}.

(** The page of a visitor whose persisted audit log is unreadable. *)
Definition storage_with_garbled_log : gmap string Text :=
  {[ "fw-audit-log" := Verbatim "[{id: audit-1" ]}.

(** A text with a comma and two double quotes. *)
Definition quoted_note : string :=
  "say " +:+ str1 dquote +:+ "hi" +:+ str1 dquote +:+ ", then go".

(** A manager that has logged three entries, the second with a payload
    that holds a comma and double quotes. *)
Definition manager_with_notes : State :=
  final (logAudit_each demo_env
           [("page_view", JObj [("page", JStr "catalog")]);
            ("note_added", JObj [("note", JStr quoted_note);
                                 ("artifacts", JArr [JNum 12; JNum (-3)])]);
            ("page_view", JObj [])]
           fresh_manager).

(** A manager constructed over a persisted log of one entry, a day old, on
    which alice has logged in and viewed a page within one millisecond:
    its log holds the old entry first, then the two entries of the same
    instant. *)
Definition manager_with_history : State :=
  final (logAudit demo_env "page_view" (JObj [])
    (final (setSession demo_env (JStr "alice") (JStr "curator")
              (JStr "Alice") JUndefined
              {| currentUser := JNull; auditLog := 0%nat;
                 arrays := {[ 0%nat := [sample_entry] ]};
                 localStorage := storage_with_log 1;
                 clockReads := 0; randomReads := 0;
                 downloads := []; alerts := []; navigation := None |}))).

(** The audit page of the dashboard. *)
Definition audit_page_env : Env :=
  {| clock := clock demo_env;
     random := random demo_env;
     toISOString := toISOString demo_env;
     Date_parse := Date_parse demo_env;
     navigator_userAgent := navigator_userAgent demo_env;
     location_pathname := "/dashboard/audit.html";
     location_hash := EmptyString;
     location_href := "https://museum.example/dashboard/audit.html" |}.

(** * Properties *)

(** ** Lists: the last [n] elements *)

Lemma slice_last_all (n : nat) (l : list AuditEntry) :
  (length l ≤ n)%nat → slice_last n l = l.
Proof.
  intros H. unfold slice_last.
  replace (length l - n)%nat with 0%nat by lia. reflexivity.
Qed.

Lemma slice_last_length (n : nat) (l : list AuditEntry) :
  length (slice_last n l) = (length l `min` n)%nat.
Proof. unfold slice_last. rewrite length_drop. lia. Qed.

Lemma slice_last_app (n : nat) (l l' : list AuditEntry) :
  slice_last n (slice_last n l ++ l') = slice_last n (l ++ l').
Proof.
  destruct (decide (length l ≤ n)%nat) as [Hle|Hgt].
  - by rewrite (slice_last_all n l).
  - unfold slice_last at 2.
    rewrite <- (take_drop (length l - n) l) at 3.
    set (k := take (length l - n) l). set (l1 := drop (length l - n) l).
    assert (length l1 = n) as Hl1.
    { subst l1. rewrite length_drop. lia. }
    unfold slice_last. rewrite <- app_assoc, !length_app.
    replace (length k + (length l1 + length l') - n)%nat
      with (length k + (length l1 + length l' - n))%nat by lia.
    rewrite drop_app_add. reflexivity.
Qed.

Lemma last_slice_last (l : list AuditEntry) (e : AuditEntry) :
  last (slice_last AUDIT_CAP (l ++ [e])) = Some e.
Proof.
  unfold slice_last. rewrite drop_app_le.
  - apply last_snoc.
  - rewrite length_app. unfold AUDIT_CAP. simpl. lia.
Qed.

Lemma after_appending_slice (l added : list AuditEntry) :
  added ≠ [] → after_appending l added = slice_last AUDIT_CAP (l ++ added).
Proof.
  destruct added as [|x a]; [done|]. intros _.
  unfold after_appending, slice_last. by rewrite length_app.
Qed.

Lemma after_appending_drop (l added : list AuditEntry) :
  (length added ≤ 1000)%nat →
  ∃ k, after_appending l added = drop k l ++ added.
Proof.
  intros Hlen. destruct added as [|x a].
  - exists 0%nat. by rewrite app_nil_r.
  - exists (length l + length (x :: a) - 1000)%nat.
    unfold after_appending. apply drop_app_le. lia.
Qed.

(** ** logAudit *)

Lemma fresh_loc_fresh (s : State) :
  fresh_loc s ≠ auditLog s ∧ fresh_loc s ∉ dom (arrays s).
Proof.
  pose proof (is_fresh ({[auditLog s]} ∪ dom (arrays s))) as H.
  fold (fresh_loc s) in H. set_solver.
Qed.

Lemma logAudit_spec (env : Env) (ev : string) (d : JSValue) (s : State) :
  ∃ s', logAudit env ev d s = Ok (new_entry env s ev d) s'
        ∧ appended s (new_entry env s ev d) s'.
Proof.
  unfold logAudit, mbind, M_bind, Date_now, Math_random, array_push,
    array_slice_last, array_read, array_write, array_new, setItem, gets,
    modify, mret, M_ret; simpl.
  unfold mbind, M_bind; simpl.
  fold (new_entry env s ev d). set (e := new_entry env s ev d).
  assert (∀ c r c', array_at (set_clockReads c (set_randomReads r
            (set_clockReads c' s))) (auditLog s) = log s) as -> by done.
  set (s1 := set_arrays _ _).
  assert (array_at s1 (auditLog s) = log s ++ [e]) as Hs1.
  { unfold array_at, s1; simpl. by rewrite lookup_insert_eq. }
  rewrite Hs1.
  destruct (decide _) as [Hgt|Hle]; simpl.
  - eexists; split; [reflexivity|].
    destruct (fresh_loc_fresh s1) as [Hne Hdom].
    split; simpl; try done; try lia.
    + unfold log, array_at; simpl. rewrite lookup_insert_eq; simpl.
      by rewrite lookup_insert_eq.
    + intros a Ha Hin. rewrite lookup_insert_ne.
      * unfold s1; simpl. by rewrite lookup_insert_ne.
      * intros <-. apply Hdom. unfold s1; simpl.
        rewrite dom_insert_L. set_solver.
  - eexists; split; [reflexivity|].
    split; simpl; try done; try lia.
    + unfold log at 1; simpl. fold (array_at s1 (auditLog s)).
      rewrite Hs1, slice_last_all; [done|lia].
    + intros a Ha Hin. by rewrite lookup_insert_ne.
Qed.

Ltac unfold_monad :=
  unfold lift, try_catch, mbind, M_bind, mret, M_ret, throw, gets, modify
    in *.

(** Decide a closed decidable proposition by evaluation. *)
Ltac by_compute := apply (bool_decide_unpack _); vm_compute; exact I.

(** Use the specification of [logAudit] at the call in the goal. *)
Ltac step_logAudit s' Heq Happ :=
  match goal with
  | |- context [logAudit ?env ?ev ?d ?s] =>
      destruct (logAudit_spec env ev d s) as (s' & Heq & Happ);
      rewrite Heq; clear Heq; simpl
  end.

(** ** How a call changes the log *)

Lemma after_appending_app (l a b : list AuditEntry) :
  after_appending (after_appending l a) b = after_appending l (a ++ b).
Proof.
  destruct a as [|x a]; [done|]. destruct b as [|y b].
  - by rewrite app_nil_r.
  - rewrite (after_appending_slice l (x :: a)) by done.
    rewrite !after_appending_slice by done.
    by rewrite slice_last_app, app_assoc.
Qed.

Lemma log_grows_trans (n k : nat) (s1 s2 s3 : State) :
  log_grows n s1 s2 → log_grows k s2 s3 → log_grows (n + k) s1 s3.
Proof.
  intros (a & Ha & H12) (b & Hb & H23). exists (a ++ b). split.
  - rewrite length_app. lia.
  - by rewrite H23, H12, after_appending_app.
Qed.

Lemma log_grows_mono (n k : nat) (s s' : State) :
  (n ≤ k)%nat → log_grows n s s' → log_grows k s s'.
Proof. intros Hnk (a & Ha & H). exists a. split; [lia|done]. Qed.

Lemma log_grows_same (n : nat) (s s' : State) :
  log s' = log s → log_grows n s s'.
Proof. intros H. exists []. split; [simpl; lia|done]. Qed.

Lemma log_grows_appended (n : nat) (s s' : State) (e : AuditEntry) :
  appended s e s' → log_grows (S n) s s'.
Proof.
  intros H. exists [e]. split; [simpl; lia|].
  rewrite after_appending_slice by done. apply H.
Qed.

Lemma log_grows_bound (n : nat) (s s' : State) :
  log_grows n s s' →
  (length (log s) ≤ AUDIT_CAP)%nat → (length (log s') ≤ AUDIT_CAP)%nat.
Proof.
  intros ([|x a] & _ & ->) H; [done|].
  rewrite after_appending_slice by done. rewrite slice_last_length. lia.
Qed.

Lemma growing_ret {A} (n : nat) (a : A) : growing n (mret a).
Proof. intros s. by apply log_grows_same. Qed.

Lemma growing_throw {A} (n : nat) (e : Error) : growing n (throw (A := A) e).
Proof. intros s. by apply log_grows_same. Qed.

Lemma growing_lift {A} (n : nat) (r : Error + A) : growing n (lift r).
Proof. destruct r; [apply growing_throw|apply growing_ret]. Qed.

Lemma growing_gets {A} (n : nat) (f : State → A) : growing n (gets f).
Proof. intros s. by apply log_grows_same. Qed.

Lemma growing_modify (n : nat) (g : State → State) :
  (∀ s, log (g s) = log s) → growing n (modify g).
Proof. intros H s. apply log_grows_same, H. Qed.

Lemma growing_bind {A B} (n k : nat) (m : M A) (f : A → M B) :
  growing n m → (∀ a, growing k (f a)) → growing (n + k) (m ≫= f).
Proof.
  intros Hm Hf s. unfold mbind, M_bind.
  specialize (Hm s). destruct (m s) as [a s1|e s1]; simpl in *.
  - eapply log_grows_trans; [done|apply Hf].
  - eapply log_grows_mono; [|done]. lia.
Qed.

Lemma growing_bind_l {A B} (n : nat) (m : M A) (f : A → M B) :
  growing 0 m → (∀ a, growing n (f a)) → growing n (m ≫= f).
Proof. apply (growing_bind 0 n). Qed.

Lemma growing_bind_r {A B} (n : nat) (m : M A) (f : A → M B) :
  growing n m → (∀ a, growing 0 (f a)) → growing n (m ≫= f).
Proof.
  intros Hm Hf s. eapply log_grows_mono; [|by apply (growing_bind n 0)]. lia.
Qed.

Lemma growing_try_catch {A} (n : nat) (body : M A) (handler : Error → M A) :
  growing n body → (∀ e, growing 0 (handler e)) →
  growing n (try_catch body handler).
Proof.
  intros Hm Hf s. unfold try_catch.
  specialize (Hm s). destruct (body s) as [a s1|e s1]; simpl in *; [done|].
  eapply log_grows_mono; [|eapply log_grows_trans; [done|apply Hf]]. lia.
Qed.

Lemma growing_logAudit (env : Env) (n : nat) (ev : string) (d : JSValue) :
  growing (S n) (logAudit env ev d).
Proof.
  intros s. destruct (logAudit_spec env ev d s) as (s' & -> & H).
  by eapply log_grows_appended.
Qed.

Lemma growing_Date_now (env : Env) (n : nat) : growing n (Date_now env).
Proof. intros s. by apply log_grows_same. Qed.

Lemma growing_setItem (n : nat) (k : string) (t : Text) :
  growing n (setItem k t).
Proof. by apply growing_modify. Qed.

Lemma growing_removeItem (n : nat) (k : string) : growing n (removeItem k).
Proof. by apply growing_modify. Qed.

Create HintDb growing.
#[export] Hint Resolve growing_ret growing_throw growing_lift growing_gets
  growing_logAudit growing_Date_now growing_setItem growing_removeItem
  : growing.

(** Bound the appends of a computation by those of its parts: a part that
    appends nothing leaves the whole bound to the rest. *)
Ltac grow :=
  first
    [ solve [auto with growing]
    | apply growing_modify; done
    | lazymatch goal with
      | |- growing _ (try_catch _ _) =>
          apply growing_try_catch; [grow | intros ?; solve [grow]]
      | |- growing _ (mbind _ _) =>
          first
            [ apply growing_bind_l; [solve [grow] | intros ?; grow]
            | apply growing_bind_r; [grow | intros ?; solve [grow]]
            | apply (growing_bind 1 1);
              [solve [grow] | intros ?; solve [grow]] ]
      | |- growing _ (if ?b then _ else _) => destruct b; grow
      | |- growing _ (match ?x with _ => _ end) => destruct x; grow
      end ].

Lemma growing_clearSession (n : nat) : growing n clearSession.
Proof. unfold clearSession. grow. Qed.

Lemma growing_redirectToLogin (env : Env) (n : nat) (msg : string) :
  growing n (redirectToLogin env msg).
Proof. unfold redirectToLogin. grow. Qed.

#[export] Hint Resolve growing_clearSession growing_redirectToLogin : growing.

Lemma growing_logout (env : Env) (n : nat) (reason : string) :
  growing (S n) (logout env reason).
Proof. unfold logout. grow. Qed.

#[export] Hint Resolve growing_logout : growing.

Lemma growing_setSession (env : Env) (u r n t : JSValue) :
  growing 1 (setSession env u r n t).
Proof. unfold setSession. grow. Qed.

Lemma growing_loadSession (env : Env) : growing 2 (loadSession env).
Proof. unfold loadSession, getItem. grow. Qed.

Lemma growing_hasPermission (n : nat) (p : string) :
  growing n (hasPermission p).
Proof. unfold hasPermission. grow. Qed.

#[export] Hint Resolve growing_hasPermission : growing.

Lemma growing_requirePermission (env : Env) (p a : string) :
  growing 1 (requirePermission env p a).
Proof. unfold requirePermission, showError. grow. Qed.

Lemma growing_protectRoutes (env : Env) : growing 0 (protectRoutes env).
Proof. unfold protectRoutes, lacks. grow. Qed.

Lemma growing_init (env : Env) : growing 2 (init env).
Proof.
  unfold init. apply growing_bind_r; [apply growing_loadSession|intros _].
  apply growing_protectRoutes.
Qed.

(** ** getAuditLog works on a copy *)

Lemma untouched_refl (s : State) : untouched s s.
Proof. by split. Qed.

Lemma untouched_log (s s' : State) : untouched s s' → log s' = log s.
Proof.
  intros H. unfold log, array_at.
  rewrite (untouched_auditLog _ _ H), (untouched_arrays _ _ H); auto.
Qed.

Lemma untouched_dom (s s' : State) (a : loc) :
  untouched s s' → a ∈ dom (arrays s) → a ∈ dom (arrays s').
Proof.
  intros H Ha. apply elem_of_dom. rewrite (untouched_arrays _ _ H) by auto.
  by apply elem_of_dom.
Qed.

(** Writing an array that [s] does not have keeps [s] untouched. *)
Lemma untouched_write (s s1 : State) (l : loc) (content : list AuditEntry) :
  untouched s s1 → private s l →
  untouched s (set_arrays (<[l := content]> (arrays s1)) s1).
Proof.
  intros H [Hne Hdom]. split; simpl; try apply H.
  intros a Ha. rewrite lookup_insert_ne; [by apply H|].
  intros <-. destruct Ha; by subst.
Qed.

Lemma fresh_loc_private (s s1 : State) :
  untouched s s1 → private s (fresh_loc s1).
Proof.
  intros H. destruct (fresh_loc_fresh s1) as [Hne Hdom]. split.
  - by rewrite <- (untouched_auditLog _ _ H).
  - intros Hin. apply Hdom. by eapply untouched_dom.
Qed.

Lemma yields_bind (s s0 : State) (c c' : list AuditEntry) (m : M loc)
    (f : loc → M loc) :
  yields s c m s0 →
  (∀ l s1, untouched s s1 → private s l → arrays s1 !! l = Some c →
           yields s c' (f l) s1) →
  yields s c' (m ≫= f) s0.
Proof.
  intros (l & s1 & Hm & Hu & Hp & Hc) Hf.
  specialize (Hf l s1 Hu Hp Hc).
  unfold yields, mbind, M_bind in *. by rewrite Hm.
Qed.

Lemma yields_ret (s s1 : State) (l : loc) (c : list AuditEntry) :
  untouched s s1 → private s l → arrays s1 !! l = Some c →
  yields s c (mret l) s1.
Proof. intros. by exists l, s1. Qed.

Lemma yields_new (s s1 : State) (content : list AuditEntry) :
  untouched s s1 → yields s content (array_new content) s1.
Proof.
  intros H. eexists _, _. split; [reflexivity|].
  pose proof (fresh_loc_private s s1 H) as Hp. split_and!.
  - by apply untouched_write.
  - done.
  - simpl. by rewrite lookup_insert_eq.
Qed.

Lemma yields_copy (s : State) : yields s (log s) (array_copy (auditLog s)) s.
Proof. apply yields_new, untouched_refl. Qed.

Lemma yields_filter (s s1 : State) (l : loc) (c : list AuditEntry)
    (p : AuditEntry → bool) :
  untouched s s1 → arrays s1 !! l = Some c →
  yields s (List.filter p c) (array_filter p l) s1.
Proof.
  intros H Hc.
  destruct (yields_new s s1 (List.filter p c) H) as (l' & s' & Hrun & Hrest).
  exists l', s'. split; [|done].
  unfold array_filter, array_read, gets, mbind, M_bind, array_at.
  rewrite Hc. exact Hrun.
Qed.

Lemma yields_sort (s s1 : State) (l : loc) (c : list AuditEntry)
    (le : AuditEntry → AuditEntry → bool) :
  untouched s s1 → private s l → arrays s1 !! l = Some c →
  yields s (sort_by le c) (array_sort le l) s1.
Proof.
  intros H Hp Hc. eexists _, _. split; [reflexivity|]. split_and!.
  - by apply untouched_write.
  - done.
  - simpl. unfold array_at. by rewrite lookup_insert_eq, Hc.
Qed.

Lemma yields_keep_if (s s1 : State) (l : loc) (c : list AuditEntry)
    (f : option string) (p : string → AuditEntry → bool) :
  untouched s s1 → private s l → arrays s1 !! l = Some c →
  yields s (keep_if f p c)
    (match given f with
     | Some x => array_filter (p x) l
     | None => mret l
     end) s1.
Proof.
  intros H Hp Hc. unfold keep_if. destruct (given f).
  - by apply yields_filter.
  - by apply yields_ret.
Qed.

Lemma getAuditLog_yields (env : Env) (filters : Filters) (s : State) :
  yields s (query env filters (log s)) (getAuditLog env filters) s.
Proof.
  unfold getAuditLog, query.
  assert (∀ (f : loc → M loc) c,
            yields s c (f (auditLog s)) s → yields s c (gets auditLog ≫= f) s)
    as Hgets by done.
  apply Hgets; clear Hgets.
  eapply yields_bind; [apply yields_copy|].
  intros l1 s1 Hu1 Hp1 Hc1.
  eapply yields_bind; [by apply yields_keep_if|].
  intros l2 s2 Hu2 Hp2 Hc2.
  eapply yields_bind; [by apply yields_keep_if|].
  intros l3 s3 Hu3 Hp3 Hc3.
  eapply yields_bind; [by apply yields_keep_if|].
  intros l4 s4 Hu4 Hp4 Hc4.
  eapply yields_bind; [by apply yields_keep_if|].
  intros l5 s5 Hu5 Hp5 Hc5.
  by apply yields_sort.
Qed.

Lemma growing_getAuditLog (env : Env) (filters : Filters) :
  growing 0 (getAuditLog env filters).
Proof.
  intros s. destruct (getAuditLog_yields env filters s)
    as (l & s' & -> & Hu & _ & _).
  by apply log_grows_same, untouched_log.
Qed.

(** ** Sorting *)

Lemma sort_insert_perm (le : AuditEntry → AuditEntry → bool) (x : AuditEntry)
    (l : list AuditEntry) :
  sort_insert le x l ≡ₚ x :: l.
Proof.
  induction l as [|y l IH]; simpl; [done|].
  destruct (le x y); [done|]. rewrite IH. apply Permutation_swap.
Qed.

Lemma sort_by_perm (le : AuditEntry → AuditEntry → bool) (l : list AuditEntry) :
  sort_by le l ≡ₚ l.
Proof.
  induction l as [|x l IH]; simpl; [done|].
  rewrite sort_insert_perm. by rewrite IH.
Qed.

Lemma sort_by_length (le : AuditEntry → AuditEntry → bool) (l : list AuditEntry) :
  length (sort_by le l) = length l.
Proof. by rewrite sort_by_perm. Qed.

Lemma query_no_filters (env : Env) (l : list AuditEntry) :
  query env no_filters l = sort_by (newest_first env) l.
Proof. reflexivity. Qed.

(** ** exportAuditLog *)

Lemma exportAuditLog_spec (env : Env) (format : string) (s : State) :
  ∃ s2 s',
    exportAuditLog env format s = Ok tt s'
    ∧ appended s2
        (new_entry env s2 "audit_log_exported"
           (export_payload format (length (log s)))) s'
    ∧ untouched s
        (set_downloads (downloads s) (set_clockReads (clockReads s) s2))
    ∧ downloads s2 =
        downloads s ++
        option_list (exported_file env format (clock env (clockReads s))
                       (sort_by (newest_first env) (log s)))
    ∧ clockReads s2 =
        (clockReads s +
         if decide (format = "json" ∨ format = "csv") then 1 else 0)%nat.
Proof.
  destruct (getAuditLog_yields env no_filters s) as (l & s1 & Hget & Hu & Hp & Hc).
  rewrite query_no_filters in Hc.
  unfold exportAuditLog, mbind, M_bind. rewrite Hget.
  unfold array_read, gets, array_at. rewrite Hc; simpl. rewrite sort_by_length.
  fold (export_payload format (length (log s))).
  unfold exported_file.
  destruct (decide (format = "json")) as [->|Hj];
    [|destruct (decide (format = "csv")) as [->|Hc']].
  - unfold today, downloadFile, Date_now, modify, mbind, M_bind, mret, M_ret;
      simpl.
    step_logAudit s' Heq Happ. eexists _, s'. split_and!; try done.
    + destruct Hu. split; simpl; try done.
    + simpl. by rewrite (untouched_downloads _ _ Hu), (untouched_clock _ _ Hu).
    + simpl. rewrite (untouched_clock _ _ Hu). lia.
  - unfold today, downloadFile, Date_now, modify, mbind, M_bind, mret, M_ret;
      simpl.
    step_logAudit s' Heq Happ. eexists _, s'. split_and!; try done.
    + destruct Hu. split; simpl; try done.
    + simpl. by rewrite (untouched_downloads _ _ Hu), (untouched_clock _ _ Hu).
    + simpl. rewrite (untouched_clock _ _ Hu). lia.
  - unfold mret, M_ret; simpl.
    step_logAudit s' Heq Happ. eexists s1, s'. split_and!; try done.
    + destruct Hu. split; simpl; try done.
    + simpl. by rewrite (untouched_downloads _ _ Hu), app_nil_r.
    + rewrite (untouched_clock _ _ Hu).
      destruct (decide _) as [[?|?]|?]; try done; lia.
Qed.

(** The entry [exportAuditLog] appends. *)
Lemma exportAuditLog_log (env : Env) (format : string) (s : State) :
  ∃ e, event e = "audit_log_exported"
       ∧ log (final (exportAuditLog env format s))
         = slice_last AUDIT_CAP (log s ++ [e]).
Proof.
  destruct (exportAuditLog_spec env format s)
    as (s2 & s' & -> & Happ & Hu & _ & _). simpl.
  exists (new_entry env s2 "audit_log_exported"
            (export_payload format (length (log s)))).
  split; [reflexivity|]. rewrite (appended_log _ _ _ Happ).
  by rewrite <- (untouched_log _ _ Hu).
Qed.

Lemma fresh_manager_new : AuthManager_new demo_env ∅ = Some (Ok tt fresh_manager).
Proof. reflexivity. Qed.

(** * C1: hasPermission *)

(** For a session whose role is one of the six registered roles,
    [hasPermission(P)] returns true exactly when the role's permissions
    contain the wildcard, [P], or the category wildcard of [P]. *)
Lemma hasPermission_registered_role (s : State) (r : JSValue) (R : Role)
    (P : string) :
  truthy (currentUser s) = true →
  get_prop (currentUser s) "role" = inr r →
  roles !! ToString r = Some R →
  hasPermission P s =
  Ok (bool_decide ("*" ∈ permissions R ∨ P ∈ permissions R
                   ∨ first_segment colon P +:+ ":*" ∈ permissions R)) s.
Proof.
  intros Hcu Hrole HR.
  unfold hasPermission, roles_get. unfold_monad.
  rewrite Hcu, Hrole; cbv beta iota delta [negb]; rewrite HR.
  assert (":*" ∉ permissions R ∨ "*" ∈ permissions R) as Hno.
  { unfold roles in HR.
    repeat (apply lookup_insert_Some in HR as [[_ <-]|[_ HR]];
            [first [left; by_compute|right; by_compute]|]).
    by rewrite lookup_empty in HR. }
  unfold includes.
  destruct (decide ("*" ∈ permissions R)) as [Hw|Hw].
  { rewrite (bool_decide_eq_true_2 _ Hw). f_equal.
    symmetry. apply bool_decide_eq_true_2. auto. }
  rewrite (bool_decide_eq_false_2 _ Hw).
  destruct (decide (P ∈ permissions R)) as [Hp|Hp].
  { rewrite (bool_decide_eq_true_2 _ Hp). f_equal.
    symmetry. apply bool_decide_eq_true_2. auto. }
  rewrite (bool_decide_eq_false_2 _ Hp).
  destruct (decide (first_segment colon P = EmptyString)) as [He|He].
  - rewrite (bool_decide_eq_true_2 _ He). f_equal.
    symmetry. apply bool_decide_eq_false_2. rewrite He.
    intros [?|[?|Hc]]; [done|done|]. destruct Hno as [Hno|Hno]; [|done].
    by apply Hno.
  - rewrite (bool_decide_eq_false_2 _ He). f_equal.
    apply bool_decide_ext. split; [auto|]. by intros [?|[?|?]].
Qed.

(** Without a session, [hasPermission] returns false. *)
Lemma hasPermission_no_session (s : State) (P : string) :
  currentUser s = JNull → hasPermission P s = Ok false s.
Proof. intros H. unfold hasPermission. unfold_monad. by rewrite H. Qed.

(** For a session whose role names neither a registered role nor a member
    of [Object.prototype], [hasPermission] returns false. *)
Lemma hasPermission_unknown_role (s : State) (P : string) :
  roles_get (ToString (get_opt (currentUser s) "role")) = Missing →
  hasPermission P s = Ok false s.
Proof.
  intros H. unfold hasPermission. unfold_monad.
  destruct (truthy (currentUser s)) eqn:Hcu; simpl; [|done].
  unfold get_opt in H.
  destruct (get_prop (currentUser s) "role") as [e|r] eqn:Hr; simpl.
  - by destruct (currentUser s).
  - cbv beta iota. by rewrite H.
Qed.

(** The curator of the specification's scenario: allowed to edit metadata,
    not to approve a deaccession; the administrator is allowed anything. *)
Example curator_may_edit_metadata :
  returned (hasPermission "edit:metadata" alice_logged_in) = Some true.
Proof. reflexivity. Qed.

Example curator_may_not_approve_deaccession :
  returned (hasPermission "approve:deaccession" alice_logged_in) = Some false.
Proof. reflexivity. Qed.

Lemma admin_may_do_anything (s : State) (P : string) :
  truthy (currentUser s) = true →
  get_prop (currentUser s) "role" = inr (JStr "admin") →
  hasPermission P s = Ok true s.
Proof.
  intros Hcu Hrole.
  rewrite (hasPermission_registered_role s (JStr "admin") admin P Hcu Hrole)
    by reflexivity.
  f_equal.
Qed.

(** C1.  The claim asks [hasPermission(P)] to return false for every session
    whose role is not registered.  It does not when the role is the name of
    a member of [Object.prototype] ([constructor], [toString], ...):
    [this.roles[role]] then finds the inherited member, which is truthy and
    has no [permissions], and [role.permissions.includes] throws a
    TypeError. *)
Theorem C1_hasPermission_throws_on_inherited_role_name (s : State)
    (r : JSValue) (P : string) :
  truthy (currentUser s) = true →
  get_prop (currentUser s) "role" = inr r →
  ToString r ∈ Object_prototype_keys →
  roles !! ToString r = None
  ∧ hasPermission P s =
    Threw (TypeError "Cannot read properties of undefined (reading 'includes')") s.
Proof.
  intros Hcu Hrole Hin.
  assert (roles !! ToString r = None) as Hnone.
  { unfold Object_prototype_keys in Hin.
    repeat (apply elem_of_cons in Hin as [->|Hin]; [by vm_compute|]).
    by apply elem_of_nil in Hin. }
  split; [done|].
  unfold hasPermission, roles_get. unfold_monad.
  rewrite Hcu, Hrole; cbv beta iota delta [negb]; rewrite Hnone.
  by rewrite decide_True.
Qed.

Lemma C1_witness :
  roles !! "constructor" = None
  ∧ hasPermission "view:public" session_with_inherited_role =
    Threw (TypeError "Cannot read properties of undefined (reading 'includes')")
      session_with_inherited_role.
Proof.
  apply (C1_hasPermission_throws_on_inherited_role_name
           session_with_inherited_role (JStr "constructor") "view:public").
  - reflexivity.
  - reflexivity.
  - by_compute.
Defined.

(** * C2: eviction is first-in, first-out *)

Lemma logAudit_each_cons (env : Env) (ev : string) (d : JSValue)
    (calls : list (string * JSValue)) :
  logAudit_each env ((ev, d) :: calls) =
  (e ← logAudit env ev d; k ← logAudit_each env calls; mret (e :: k)).
Proof. reflexivity. Qed.

Lemma logAudit_each_spec (env : Env) (calls : list (string * JSValue))
    (s : State) :
  ∃ entries s',
    logAudit_each env calls s = Ok entries s'
    ∧ Forall2 (λ c e, event e = c.1) calls entries
    ∧ log s' = match entries with
               | [] => log s
               | _ => slice_last AUDIT_CAP (log s ++ entries)
               end.
Proof.
  revert s. induction calls as [|[ev d] calls IH]; intros s.
  - by exists [], s.
  - rewrite logAudit_each_cons. unfold mbind, M_bind.
    destruct (logAudit_spec env ev d s) as (s1 & -> & Happ).
    destruct (IH s1) as (entries & s' & -> & Hall & Hlog).
    eexists _, s'. split; [reflexivity|]. split.
    + by constructor.
    + rewrite Hlog, (appended_log _ _ _ Happ). destruct entries; [done|].
      by rewrite slice_last_app, <- app_assoc.
Qed.

(** C2.  From an empty log, 1001 appends leave 1000 entries: the entries of
    appends 2 to 1001, in the order of the appends. *)
Theorem C2_fifo_eviction (env : Env) (s : State)
    (calls : list (string * JSValue)) :
  log s = [] →
  length calls = 1001%nat →
  ∃ entries s',
    logAudit_each env calls s = Ok entries s'
    ∧ length entries = 1001%nat
    ∧ Forall2 (λ c e, event e = c.1) calls entries
    ∧ length (log s') = 1000%nat
    ∧ log s' = drop 1 entries.
Proof.
  intros Hempty Hlen.
  destruct (logAudit_each_spec env calls s) as (entries & s' & Hrun & Hall & Hlog).
  assert (length entries = 1001%nat) as Hn.
  { by rewrite <- (Forall2_length _ _ _ Hall). }
  exists entries, s'. split_and!; try done.
  - rewrite Hlog, Hempty. destruct entries; [done|].
    rewrite slice_last_length. unfold AUDIT_CAP. simpl in *. lia.
  - rewrite Hlog, Hempty. destruct entries as [|e entries]; [done|].
    unfold slice_last, AUDIT_CAP. simpl app. rewrite Hn. reflexivity.
Qed.

Lemma C2_witness :
  ∃ entries s',
    logAudit_each demo_env (replicate 1001 ("page_view", JObj [])) fresh_manager
    = Ok entries s'
    ∧ length entries = 1001%nat
    ∧ Forall2 (λ c e, event e = c.1)
        (replicate 1001 ("page_view", JObj [])) entries
    ∧ length (log s') = 1000%nat
    ∧ log s' = drop 1 entries.
Proof.
  apply (C2_fifo_eviction demo_env fresh_manager
           (replicate 1001 ("page_view", JObj []))).
  - reflexivity.
  - reflexivity.
Defined.

(** * C3: the bound on the log *)

Lemma setSession_log (env : Env) (u r n t : JSValue) (s : State) :
  ∃ e, event e = "session_created"
       ∧ log (final (setSession env u r n t s))
         = slice_last AUDIT_CAP (log s ++ [e]).
Proof.
  unfold setSession, Date_now, setItem. unfold_monad. simpl.
  step_logAudit s' Heq Happ.
  match type of Happ with appended _ ?e _ => exists e end.
  split; [reflexivity|exact (appended_log _ _ _ Happ)].
Qed.

Lemma logout_log (env : Env) (reason : string) (s : State) :
  ∃ e, event e = "user_logout"
       ∧ log (final (logout env reason s))
         = slice_last AUDIT_CAP (log s ++ [e]).
Proof.
  unfold logout, clearSession, redirectToLogin, removeItem, setItem.
  unfold_monad. step_logAudit s' Heq Happ.
  match type of Happ with appended _ ?e _ => exists e end.
  split; [reflexivity|exact (appended_log _ _ _ Happ)].
Qed.

(** A call appends at most [appends c] entries. *)
Lemma perform_grows (env : Env) (c : Call) (s : State) :
  log_grows (appends c) s (perform env c s).
Proof.
  destruct c; simpl.
  - apply growing_logAudit.
  - apply growing_getAuditLog.
  - destruct (exportAuditLog_log env format s) as (e & _ & He).
    exists [e]. split; [simpl; lia|].
    by rewrite after_appending_slice.
  - apply growing_setSession.
  - apply growing_loadSession.
  - apply growing_logout.
  - apply growing_clearSession.
  - apply growing_hasPermission.
  - apply growing_requirePermission.
Qed.

(** The calls that log in every state append one entry, with their
    event. *)
Lemma perform_logs (env : Env) (c : Call) (ev : string) (s : State) :
  logs_event c = Some ev →
  ∃ e, event e = ev
       ∧ log (perform env c s) = slice_last AUDIT_CAP (log s ++ [e]).
Proof.
  destruct c as [ev' d| | | | | | | |]; simpl; intros [= <-].
  - destruct (logAudit_spec env ev' d s) as (s' & -> & Happ).
    match type of Happ with appended _ ?e _ => exists e end.
  split; [reflexivity|exact (appended_log _ _ _ Happ)].
  - apply exportAuditLog_log.
  - apply setSession_log.
  - apply logout_log.
Qed.




(** * C4: an expired session is logged out on load *)

Lemma get_prop_defined (v x : JSValue) (k k' : string) :
  get_prop v k = inr x → get_prop v k' = inr (get_opt v k').
Proof. unfold get_opt. by destruct v. Qed.

(** C4.  When the persisted session parses to a value whose [timestamp] is
    an instant more than 24 hours before the clock reading [loadSession]
    compares it with, [loadSession] returns with no session
    ([currentUser] is null and the [fw-auth] key is removed), and the last
    entry of the log is a [user_logout] entry whose payload is
    [{reason: "Session expired"}]. *)
Theorem C4_expired_session_is_logged_out (env : Env) (s : State)
    (text : Text) (session ts : JSValue) (t : Z) :
  localStorage s !! "fw-auth" = Some text →
  JSON_parse text = inr session →
  get_prop session "timestamp" = inr ts →
  Date_getTime env ts = Some t →
  (clock env (clockReads s + 2) - t > session_max_age)%Z →
  ∃ s' e,
    loadSession env s = Ok tt s'
    ∧ currentUser s' = JNull
    ∧ localStorage s' !! "fw-auth" = None
    ∧ last (log s') = Some e
    ∧ event e = "user_logout"
    ∧ data e = JObj [("reason", JStr "Session expired")]
    ∧ userId e = js_or (get_opt session "username") (JStr "anonymous").
Proof.
  intros Hstored Hparse Hts Ht Hold.
  assert (text_falsy (Some text) = false) as Hfalsy.
  { destruct text; [done|reflexivity]. }
  unfold loadSession, getItem. unfold_monad. rewrite Hstored, Hfalsy; simpl.
  rewrite Hparse; simpl.
  rewrite (get_prop_defined _ _ _ "username" Hts); simpl.
  rewrite (get_prop_defined _ _ _ "role" Hts); simpl.
  step_logAudit s1 Heq1 Happ1.
  unfold Date_now; simpl.
  rewrite (appended_user _ _ _ Happ1); simpl. rewrite Hts; simpl. rewrite Ht.
  rewrite (appended_clock _ _ _ Happ1); simpl.
  rewrite decide_True by done.
  unfold logout, clearSession, redirectToLogin, removeItem, setItem.
  unfold_monad.
  step_logAudit s2 Heq2 Happ2.
  eexists _, _. split; [reflexivity|]. simpl. split_and!.
  - done.
  - rewrite !lookup_insert_ne by done. apply lookup_delete_eq.
  - change (log (set_navigation ?n (set_localStorage ?m (set_localStorage ?m'
              (set_currentUser ?u (set_localStorage ?m'' s2))))))
      with (log s2).
    rewrite (appended_log _ _ _ Happ2). apply last_slice_last.
  - done.
  - done.
  - simpl. by rewrite (appended_user _ _ _ Happ1).
Qed.

Lemma C4_witness :
  ∃ s' e,
    loadSession demo_env page_with_day_old_session = Ok tt s'
    ∧ currentUser s' = JNull
    ∧ localStorage s' !! "fw-auth" = None
    ∧ last (log s') = Some e
    ∧ event e = "user_logout"
    ∧ data e = JObj [("reason", JStr "Session expired")]
    ∧ userId e = js_or (get_opt day_old_session "username") (JStr "anonymous").
Proof.
  apply (C4_expired_session_is_logged_out demo_env page_with_day_old_session
           (Stringified day_old_session) day_old_session
           (JStr "2024-01-01T00:00:00.000Z") a_day_and_an_hour_earlier).
  - reflexivity.
  - reflexivity.
  - reflexivity.
  - reflexivity.
  - vm_compute. reflexivity.
Defined.

(** * C5: session ids *)

(** The session [setSession] installs: its id is the text of the second
    clock reading of the call. *)
Lemma setSession_spec (env : Env) (u r n t : JSValue) (s : State) :
  ∃ s', setSession env u r n t s = Ok tt s'
        ∧ sessionId (currentUser s') =
          JStr ("fw-" +:+ pretty (clock env (S (clockReads s))))
        ∧ get_opt (currentUser s') "username" = u
        ∧ localStorage s' !! "fw-auth" = Some (Stringified (currentUser s')).
Proof.
  unfold setSession, Date_now, setItem. unfold_monad. simpl.
  step_logAudit s' Heq Happ.
  exists s'. split; [done|].
  rewrite (appended_user _ _ _ Happ), (appended_storage _ _ _ Happ); simpl.
  split_and!; try done.
  rewrite lookup_insert_ne by done. by rewrite lookup_insert_eq.
Qed.

(** C5, as stated, fails: two calls of [setSession] that read the clock in
    the same millisecond create two sessions with the same [sessionId]. *)
Lemma C5_counterexample :
  let s1 := final (setSession demo_env (JStr "alice") (JStr "curator")
                     (JStr "Alice") JUndefined fresh_manager) in
  let s2 := final (setSession demo_env (JStr "bob") (JStr "board")
                     (JStr "Bob") JUndefined s1) in
  currentUser s1 ≠ currentUser s2
  ∧ sessionId (currentUser s1) = sessionId (currentUser s2).
Proof. split; [by vm_compute|by vm_compute]. Qed.

(** C5, amended.  Two sessions created by calls of [setSession] whose
    [Date.now()] readings differ have distinct [sessionId]s. *)
Theorem C5_sessionId_distinct_when_clock_differs (env : Env) (s1 s2 : State)
    (u1 r1 n1 t1 u2 r2 n2 t2 : JSValue) :
  clock env (S (clockReads s1)) ≠ clock env (S (clockReads s2)) →
  sessionId (currentUser (final (setSession env u1 r1 n1 t1 s1))) ≠
  sessionId (currentUser (final (setSession env u2 r2 n2 t2 s2))).
Proof.
  intros Hclock.
  destruct (setSession_spec env u1 r1 n1 t1 s1) as (s1' & -> & Hid1 & _).
  destruct (setSession_spec env u2 r2 n2 t2 s2) as (s2' & -> & Hid2 & _).
  simpl. rewrite Hid1, Hid2. intros Heq. apply Hclock.
  assert (∀ a b, JStr a = JStr b → a = b) as Hstr by congruence.
  apply Hstr in Heq.
  apply (inj (String.app "fw-")) in Heq. by apply (inj pretty) in Heq.
Qed.

Lemma C5_witness :
  let s1 := final (setSession ticking_env (JStr "alice") (JStr "curator")
                     (JStr "Alice") JUndefined fresh_manager) in
  sessionId (currentUser s1) ≠
  sessionId (currentUser (final (setSession ticking_env (JStr "bob")
                                   (JStr "board") (JStr "Bob") JUndefined s1))).
Proof.
  intros s1.
  apply (C5_sessionId_distinct_when_clock_differs ticking_env fresh_manager s1).
  vm_compute. discriminate.
Defined.

(** * C8: a persisted session that cannot be read *)

(** C8, as stated, fails: a persisted value that is JSON but not a session
    is not cleared; it becomes the current user. *)
Lemma C8_counterexample :
  let s' := final (loadSession demo_env page_with_empty_object_session) in
  returned (loadSession demo_env page_with_empty_object_session) = Some tt
  ∧ currentUser s' = JObj []
  ∧ currentUser s' ≠ JNull
  ∧ localStorage s' !! "fw-auth" = Some (Stringified (JObj [])).
Proof. split_and!; by vm_compute. Qed.

(** C8, amended.  When the persisted [fw-auth] value is a non-empty text
    that [JSON.parse] rejects, or the JSON text of [null], [loadSession]
    returns normally, removes the key and leaves no session; it appends
    nothing to the log. *)
Theorem C8_unreadable_session_is_cleared (env : Env) (s : State) (text : Text) :
  localStorage s !! "fw-auth" = Some text →
  text_falsy (Some text) = false →
  (∃ e, JSON_parse text = inl e) ∨ JSON_parse text = inr JNull →
  ∃ s', loadSession env s = Ok tt s'
        ∧ currentUser s' = JNull
        ∧ localStorage s' !! "fw-auth" = None
        ∧ log s' = log s.
Proof.
  intros Hstored Hfalsy Hbad.
  unfold loadSession, getItem, clearSession, removeItem. unfold_monad.
  rewrite Hstored, Hfalsy; simpl.
  destruct Hbad as [[e ->]| ->]; simpl.
  - eexists. split; [reflexivity|]. simpl. split_and!; try done.
    apply lookup_delete_eq.
  - eexists. split; [reflexivity|]. simpl. split_and!; try done.
    apply lookup_delete_eq.
Qed.

Lemma C8_witness :
  ∃ s', loadSession demo_env page_with_garbled_session = Ok tt s'
        ∧ currentUser s' = JNull
        ∧ localStorage s' !! "fw-auth" = None
        ∧ log s' = log page_with_garbled_session.
Proof.
  apply (C8_unreadable_session_is_cleared demo_env page_with_garbled_session
           (Verbatim "{username: alice")).
  - reflexivity.
  - reflexivity.
  - left. eexists. reflexivity.
Defined.

(** * C7: getAuditLog reads, and reads the same twice *)

(** C7.  [getAuditLog(filters)] returns a new array holding the entries the
    filters keep, newest first; the log reference, the array it names and
    every array that existed before the call are as before, for every
    filter combination.  Two calls of [getAuditLog({})] in a row return
    arrays with the same content, and the second call leaves the array
    returned by the first as it was. *)
Theorem C7_getAuditLog_reads_only (env : Env) (s : State) (filters : Filters) :
  (∃ l s', getAuditLog env filters s = Ok l s'
           ∧ array_at s' l = query env filters (log s)
           ∧ l ≠ auditLog s
           ∧ auditLog s' = auditLog s
           ∧ log s' = log s
           ∧ untouched s s')
  ∧ (∃ l1 s1 l2 s2,
        getAuditLog env no_filters s = Ok l1 s1
        ∧ getAuditLog env no_filters s1 = Ok l2 s2
        ∧ array_at s2 l2 = array_at s1 l1
        ∧ array_at s2 l1 = array_at s1 l1
        ∧ log s2 = log s).
Proof.
  split.
  - destruct (getAuditLog_yields env filters s) as (l & s' & Hrun & Hu & Hp & Hc).
    exists l, s'. split_and!; try done.
    + unfold array_at. by rewrite Hc.
    + apply Hp.
    + apply Hu.
    + by apply untouched_log.
  - destruct (getAuditLog_yields env no_filters s)
      as (l1 & s1 & Hrun1 & Hu1 & Hp1 & Hc1).
    destruct (getAuditLog_yields env no_filters s1)
      as (l2 & s2 & Hrun2 & Hu2 & Hp2 & Hc2).
    exists l1, s1, l2, s2. split_and!; try done.
    + unfold array_at. rewrite Hc2, Hc1. simpl.
      by rewrite (untouched_log _ _ Hu1).
    + unfold array_at. rewrite (untouched_arrays _ _ Hu2); [done|].
      right. apply elem_of_dom. by rewrite Hc1.
    + by rewrite (untouched_log _ _ Hu2), (untouched_log _ _ Hu1).
Qed.

(** * C6: the JSON export *)

Lemma json_norm_safe (v : JSValue) : json_safe v = true → json_norm v = v.
Proof.
  revert v. fix IH 1. intros [ | |b|n|s|items|props] H; simpl in *; try done.
  - f_equal. induction items as [|x items IHl]; simpl in *; [done|].
    apply andb_prop in H as [Hx Hl]. f_equal; [by apply IH|by apply IHl].
  - f_equal. induction props as [|[k x] props IHl]; simpl in *; [done|].
    apply andb_prop in H as [Hx Hl].
    rewrite (IHl Hl). rewrite (IH x Hx). by destruct x.
Qed.

Lemma json_norm_entry (e : AuditEntry) :
  entry_safe e = true → json_norm (entry_to_json e) = entry_to_json e.
Proof.
  unfold entry_safe. intros H.
  apply andb_prop in H as [H Hd]. apply andb_prop in H as [Hu Hr].
  unfold entry_to_json. simpl.
  rewrite (json_norm_safe _ Hu), (json_norm_safe _ Hr), (json_norm_safe _ Hd).
  by destruct (userId e), (userRole e), (data e).
Qed.

Lemma json_norm_log (l : list AuditEntry) :
  Forall (λ e, entry_safe e = true) l →
  json_norm (log_to_json l) = log_to_json l.
Proof.
  intros H. unfold log_to_json.
  change (JArr (List.map json_norm (List.map entry_to_json l)) =
          JArr (List.map entry_to_json l)).
  f_equal. induction H as [|e l He Hl IH]; [done|].
  change (json_norm (entry_to_json e)
            :: List.map json_norm (List.map entry_to_json l) =
          entry_to_json e :: List.map entry_to_json l).
  by rewrite json_norm_entry, IH.
Qed.

(** What [exportAuditLog('json')] does in every state: the file holds the
    entries [getAuditLog({})] returns before the call, and the entry about
    the export is appended to the log afterwards. *)
Lemma exportAuditLog_json_spec (env : Env) (s : State) :
  ∃ l s1 s' d e,
    getAuditLog env no_filters s = Ok l s1
    ∧ exportAuditLog env "json" s = Ok tt s'
    ∧ downloads s' = downloads s ++ [d]
    ∧ body d = Stringified (log_to_json (array_at s1 l))
    ∧ JSON_parse (body d) = inr (json_norm (log_to_json (array_at s1 l)))
    ∧ array_at s1 l ≡ₚ log s
    ∧ log s1 = log s
    ∧ log s' = slice_last AUDIT_CAP (log s ++ [e])
    ∧ event e = "audit_log_exported"
    ∧ data e = export_payload "json" (length (log s)).
Proof.
  destruct (getAuditLog_yields env no_filters s) as (l & s1 & Hget & Hu & Hp & Hc).
  destruct (exportAuditLog_spec env "json" s) as (s2 & s' & Hrun & Happ & Hu2 & Hd & _).
  rewrite query_no_filters in Hc.
  assert (array_at s1 l = sort_by (newest_first env) (log s)) as Hsnap.
  { unfold array_at. by rewrite Hc. }
  pose proof (untouched_log _ _ Hu2) as Hlog2.
  change (log s2 = log s) in Hlog2.
  unfold exported_file in Hd. rewrite decide_True in Hd by done. simpl in Hd.
  eexists l, s1, s', _, _. split_and!.
  - exact Hget.
  - exact Hrun.
  - rewrite (appended_downloads _ _ _ Happ), Hd. reflexivity.
  - simpl. by rewrite Hsnap.
  - simpl. by rewrite Hsnap.
  - rewrite Hsnap. apply sort_by_perm.
  - by apply untouched_log.
  - rewrite (appended_log _ _ _ Happ), Hlog2. reflexivity.
  - reflexivity.
  - reflexivity.
Qed.

(** C6, as stated, fails: the exported JSON, parsed back, lacks the payload
    properties whose value is [undefined], which the entries returned by
    [getAuditLog({})] have. *)
Lemma C6_counterexample :
  ∃ l s1 d,
    getAuditLog demo_env no_filters denied_anonymous = Ok l s1
    ∧ downloads (final (exportAuditLog demo_env "json" denied_anonymous)) = [d]
    ∧ JSON_parse (body d) ≠ inr (log_to_json (array_at s1 l)).
Proof.
  eexists _, _, _. split_and!.
  - vm_compute. reflexivity.
  - vm_compute. reflexivity.
  - vm_compute. intros H. discriminate H.
Qed.

(** C6, amended.  When no entry of the log carries an [undefined] value,
    the JSON that [exportAuditLog('json')] produces, parsed back, equals the
    sequence [getAuditLog({})] returns before the export.  That sequence
    holds exactly the entries of the log before the export; the export
    leaves them as they are, and appends after the snapshot one
    [audit_log_exported] entry with payload [{format, entryCount}], where
    [entryCount] is the number of entries before the export. *)
Theorem C6_export_json_round_trip (env : Env) (s : State) :
  Forall (λ e, entry_safe e = true) (log s) →
  ∃ l s1 s' d e,
    getAuditLog env no_filters s = Ok l s1
    ∧ exportAuditLog env "json" s = Ok tt s'
    ∧ downloads s' = downloads s ++ [d]
    ∧ JSON_parse (body d) = inr (log_to_json (array_at s1 l))
    ∧ array_at s1 l ≡ₚ log s
    ∧ log s1 = log s
    ∧ log s' = slice_last AUDIT_CAP (log s ++ [e])
    ∧ event e = "audit_log_exported"
    ∧ data e = export_payload "json" (length (log s)).
Proof.
  intros Hsafe.
  destruct (exportAuditLog_json_spec env s)
    as (l & s1 & s' & d & e & Hget & Hrun & Hd & Hbody & Hparse & Hperm & Hlog1
        & Hlog & Hev & Hdata).
  exists l, s1, s', d, e. split_and!; try done.
  rewrite Hparse. f_equal. apply json_norm_log.
  by rewrite Hperm.
Qed.

Lemma C6_witness :
  ∃ l s1 s' d e,
    getAuditLog demo_env no_filters alice_logged_in = Ok l s1
    ∧ exportAuditLog demo_env "json" alice_logged_in = Ok tt s'
    ∧ downloads s' = downloads alice_logged_in ++ [d]
    ∧ JSON_parse (body d) = inr (log_to_json (array_at s1 l))
    ∧ array_at s1 l ≡ₚ log alice_logged_in
    ∧ log s1 = log alice_logged_in
    ∧ log s' = slice_last AUDIT_CAP (log alice_logged_in ++ [e])
    ∧ event e = "audit_log_exported"
    ∧ data e = export_payload "json" (length (log alice_logged_in)).
Proof.
  apply (C6_export_json_round_trip demo_env alice_logged_in).
  vm_compute. repeat constructor.
Defined.

(** * C9: the CSV export *)

Lemma str_app_cons (c : ascii) (s t : string) :
  String c s +:+ t = String c (s +:+ t).
Proof. reflexivity. Qed.

Lemma str_app_nil_l (s : string) : EmptyString +:+ s = s.
Proof. reflexivity. Qed.

Lemma str_app_nil_r (s : string) : s +:+ EmptyString = s.
Proof. induction s as [|c s IH]; [done|]. by rewrite str_app_cons, IH. Qed.

Lemma str_app_assoc (s t u : string) : (s +:+ t) +:+ u = s +:+ (t +:+ u).
Proof. induction s as [|c s IH]; [done|]. by rewrite !str_app_cons, IH. Qed.

Lemma str_length_app (s t : string) :
  String.length (s +:+ t) = (String.length s + String.length t)%nat.
Proof. induction s as [|c s IH]; [done|]. simpl. by rewrite <- IH. Qed.

Lemma csv_read_quoted (cell field : string) (row : list string) (rest : string) :
  csv_read InQuoted field row (double_quotes cell +:+ String dquote rest) =
  csv_read AfterQuote (field +:+ cell) row rest.
Proof.
  revert field. induction cell as [|c cell IH]; intros field.
  - rewrite str_app_nil_r. simpl double_quotes. rewrite str_app_nil_l.
    reflexivity.
  - simpl double_quotes. destruct (decide (c = dquote)) as [->|Hc].
    + rewrite !str_app_cons. simpl csv_read. rewrite ?decide_True by done.
      rewrite IH. by rewrite str_app_assoc.
    + rewrite str_app_cons. simpl csv_read. rewrite ?decide_False by done.
      rewrite IH. by rewrite str_app_assoc.
Qed.

Lemma csv_read_cell (cell : string) (row : list string) (rest : string) :
  csv_read FieldStart EmptyString row (csv_cell cell +:+ rest) =
  csv_read AfterQuote cell row rest.
Proof.
  unfold csv_cell. rewrite str_app_cons, str_app_assoc. simpl csv_read.
  rewrite ?decide_True by done.
  change (str1 dquote +:+ rest) with (String dquote rest).
  by rewrite csv_read_quoted.
Qed.

Lemma csv_read_comma (field : string) (row : list string) (rest : string) :
  csv_read AfterQuote field row (String comma rest) =
  csv_read FieldStart EmptyString (row ++ [field]) rest.
Proof. reflexivity. Qed.

Lemma csv_read_newline (field : string) (row : list string) (rest : string) :
  csv_read AfterQuote field row (String newline rest) =
  cons (row ++ [field]) <$> csv_read FieldStart EmptyString [] rest.
Proof. reflexivity. Qed.

Lemma csv_read_end (field : string) (row : list string) :
  csv_read AfterQuote field row EmptyString = Some [row ++ [field]].
Proof. reflexivity. Qed.

Lemma csv_line_cons (cell : string) (cells : list string) :
  cells ≠ [] →
  csv_line (cell :: cells) = csv_cell cell +:+ String comma (csv_line cells).
Proof. destruct cells; [done|]. reflexivity. Qed.

Lemma csv_read_line (cells : list string) (row : list string) (rest : string) :
  cells ≠ [] →
  ∃ cell, last cells = Some cell
          ∧ csv_read FieldStart EmptyString row (csv_line cells +:+ rest) =
            csv_read AfterQuote cell (row ++ removelast cells) rest.
Proof.
  revert row. induction cells as [|c cells IH]; intros row Hne; [done|].
  destruct cells as [|c' cells].
  - exists c. split; [done|]. simpl removelast. rewrite app_nil_r.
    apply csv_read_cell.
  - destruct (IH (row ++ [c])) as (cell & Hlast & Hread); [done|].
    exists cell. split; [done|].
    rewrite csv_line_cons by done. rewrite str_app_assoc, csv_read_cell.
    rewrite str_app_cons, csv_read_comma.
    rewrite Hread. by rewrite <- app_assoc.
Qed.

Lemma removelast_last (cells : list string) (cell : string) :
  last cells = Some cell → removelast cells ++ [cell] = cells.
Proof.
  intros H. induction cells as [|c cells IH]; [done|].
  destruct cells as [|c' cells]; [by injection H as ->|].
  change (c :: (removelast (c' :: cells) ++ [cell]) = c :: c' :: cells).
  by rewrite IH.
Qed.

(** The reader recovers the rows from the text written for them. *)
Lemma csv_parse_lines (rows : list (list string)) :
  rows ≠ [] → Forall (λ row, row ≠ []) rows →
  csv_parse (join (str1 newline) (List.map csv_line rows)) = Some rows.
Proof.
  unfold csv_parse. intros Hne Hall.
  induction Hall as [|row rows Hrow Hrows IH]; [done|].
  destruct rows as [|row' rows].
  - simpl join. rewrite <- (str_app_nil_r (csv_line row)).
    destruct (csv_read_line row [] EmptyString Hrow) as (cell & Hlast & ->).
    rewrite csv_read_end. simpl. by rewrite removelast_last.
  - change (join (str1 newline) (List.map csv_line (row :: row' :: rows)))
      with (csv_line row +:+ String newline
              (join (str1 newline) (List.map csv_line (row' :: rows)))).
    destruct (csv_read_line row [] (String newline
                (join (str1 newline) (List.map csv_line (row' :: rows)))) Hrow)
      as (cell & Hlast & ->).
    rewrite csv_read_newline, IH by done. simpl. by rewrite removelast_last.
Qed.

Lemma csv_parse_export (logs : list AuditEntry) :
  csv_parse (csv_of logs) = Some (csv_headers :: List.map csv_row logs).
Proof.
  unfold csv_of. apply csv_parse_lines; [done|].
  constructor; [done|]. induction logs; by constructor.
Qed.

(** ** The JSON reader reads what [JSON_text] writes

    *** Numbers *)

Lemma digit_of_pretty_N_char (m : N) :
  (m < 10)%N → digit_of (pretty_N_char m) = Some m.
Proof.
  intros H.
  assert (m = 0 ∨ m = 1 ∨ m = 2 ∨ m = 3 ∨ m = 4 ∨ m = 5 ∨ m = 6 ∨ m = 7
          ∨ m = 8 ∨ m = 9)%N as Hm by lia.
  repeat destruct Hm as [->|Hm]; try reflexivity. by subst.
Qed.

Lemma pretty_N_go_app (x : N) (s r : string) :
  pretty_N_go x s +:+ r = pretty_N_go x (s +:+ r).
Proof.
  revert s. induction (N.lt_wf_0 x) as [x _ IH]; intros s.
  destruct (decide (x = 0)%N) as [->|Hx]; [by rewrite !pretty_N_go_0|].
  rewrite (pretty_N_go_step x s), (pretty_N_go_step x (s +:+ r)) by lia.
  rewrite IH; [by rewrite str_app_cons|]. apply N.div_lt; lia.
Qed.

(** The digits of a positive number start with a digit other than [0], and
    read as the number. *)
Lemma pretty_N_go_read (x : N) (s : string) :
  (0 < x)%N →
  ∃ c tail d,
    pretty_N_go x s = String c tail ∧ digit_of c = Some d ∧ d ≠ 0%N
    ∧ read_digits d tail = read_digits x s.
Proof.
  revert s. induction (N.lt_wf_0 x) as [x _ IH]; intros s Hx.
  rewrite pretty_N_go_step by done.
  pose proof (N.div_mod x 10 ltac:(lia)) as Hdm.
  pose proof (N.mod_lt x 10 ltac:(lia)) as Hlt.
  destruct (decide (x `div` 10 = 0)%N) as [H0|Hpos].
  - rewrite H0, pretty_N_go_0. eexists _, _, _. split; [reflexivity|].
    rewrite digit_of_pretty_N_char by done.
    split; [done|]. split; [lia|]. f_equal. lia.
  - destruct (IH (x `div` 10)%N) with (s := String (pretty_N_char (x `mod` 10)) s)
      as (c & tail & d & -> & Hc & Hd & Hread).
    { apply N.div_lt; lia. }
    { lia. }
    exists c, tail, d. split_and!; try done.
    rewrite Hread. simpl. rewrite digit_of_pretty_N_char by done.
    f_equal. lia.
Qed.

Lemma read_digits_delimited (n : N) (rest : string) :
  delimited rest → read_digits n rest = (n, rest).
Proof. destruct rest as [|c r]; [done|]. simpl. by intros ->. Qed.

Lemma read_nat_pretty (x : N) (rest : string) :
  (0 < x)%N → delimited rest →
  ∃ c tail, pretty_N_go x EmptyString +:+ rest = String c tail
            ∧ is_Some (digit_of c)
            ∧ read_nat (pretty_N_go x EmptyString +:+ rest) = Some (x, rest).
Proof.
  intros Hx Hrest. rewrite pretty_N_go_app.
  destruct (pretty_N_go_read x (EmptyString +:+ rest) Hx)
    as (c & tail & d & -> & Hc & Hd & Hread).
  exists c, tail. split; [done|]. split; [by rewrite Hc|].
  unfold read_nat. rewrite Hc.
  apply N.eqb_neq in Hd. rewrite Hd, Hread.
  by rewrite read_digits_delimited.
Qed.

Lemma read_int_pretty (z : Z) (rest : string) :
  delimited rest →
  ∃ c tail, pretty z +:+ rest = String c tail
            ∧ (c = "-"%char ∨ is_Some (digit_of c))
            ∧ read_int (pretty z +:+ rest) = Some (z, rest).
Proof.
  intros Hrest. destruct z as [|p|p].
  - exists "0"%char, rest. split_and!; [done|by right|done].
  - change (pretty (Z.pos p)) with (pretty (N.pos p)).
    unfold pretty, pretty_N. rewrite decide_False by done.
    destruct (read_nat_pretty (N.pos p) rest) as (c & tail & Heq & Hc & Hread);
      [done|done|].
    exists c, tail. split_and!; [done|by right|].
    rewrite Heq in *. unfold read_int.
    destruct (decide (c = "-"%char)) as [->|_]; [by destruct Hc|].
    by rewrite Hread.
  - change (pretty (Z.neg p)) with ("-" +:+ pretty (N.pos p)).
    unfold pretty, pretty_N. rewrite decide_False by done.
    destruct (read_nat_pretty (N.pos p) rest) as (c & tail & Heq & Hc & Hread);
      [done|done|].
    exists "-"%char, (pretty_N_go (N.pos p) EmptyString +:+ rest).
    split_and!; [done|by left|].
    change (read_int (String "-" (pretty_N_go (N.pos p) EmptyString +:+ rest))
            = Some (Z.neg p, rest)).
    unfold read_int. rewrite decide_True by done. by rewrite Hread.
Qed.

(** *** Strings *)

Lemma read_string_escape (c : ascii) (acc tail : string) :
  read_string acc (json_escape_char c +:+ tail) =
  read_string (acc +:+ str1 c) tail.
Proof.
  destruct c as [[] [] [] [] [] [] [] []]; reflexivity.
Qed.

Lemma read_string_escaped (s acc rest : string) :
  read_string acc (json_escape s +:+ String dquote rest) = Some (acc +:+ s, rest).
Proof.
  revert acc. induction s as [|c s IH]; intros acc.
  - simpl. by rewrite str_app_nil_r.
  - simpl json_escape. rewrite str_app_assoc, read_string_escape, IH.
    by rewrite str_app_assoc.
Qed.

Lemma read_string_quoted (s rest : string) :
  json_quote s +:+ rest = String dquote (json_escape s +:+ String dquote rest).
Proof. unfold json_quote. by rewrite str_app_cons, str_app_assoc. Qed.

Lemma JSON_text_obj (props : list (string * JSValue)) :
  JSON_text (JObj props) = "{" +:+ join "," (member_texts props) +:+ "}".
Proof. reflexivity. Qed.

Lemma json_norm_obj (props : list (string * JSValue)) :
  json_norm (JObj props) = JObj (members_norm props).
Proof. reflexivity. Qed.

Lemma JSValue_induction (P : JSValue → Prop) :
  P JUndefined → P JNull → (∀ b, P (JBool b)) → (∀ n, P (JNum n)) →
  (∀ s, P (JStr s)) →
  (∀ items, Forall P items → P (JArr items)) →
  (∀ props, Forall (λ kv, P kv.2) props → P (JObj props)) →
  ∀ v, P v.
Proof.
  intros Hu Hn Hb Hz Hs Harr Hobj. fix IH 1.
  intros [ | |b|n|s|items|props].
  - exact Hu.
  - exact Hn.
  - apply Hb.
  - apply Hz.
  - apply Hs.
  - apply Harr. induction items as [|x items IHl]; constructor.
    + apply IH.
    + exact IHl.
  - apply Hobj. induction props as [|[k x] props IHl]; constructor.
    + apply IH.
    + exact IHl.
Qed.

Lemma skip_ws_head (c : ascii) (t : string) :
  is_ws c = false → skip_ws (String c t) = String c t.
Proof. intros H. simpl. by rewrite H. Qed.

Lemma digit_not_ws (c : ascii) : is_Some (digit_of c) → is_ws c = false.
Proof.
  destruct c as [[] [] [] [] [] [] [] []]; try reflexivity;
    intros [d Hd]; discriminate Hd.
Qed.

Lemma starts_value_spec (c : ascii) :
  starts_value c = true →
  is_ws c = false ∧ c ≠ "]"%char ∧ c ≠ "}"%char.
Proof.
  destruct c as [[] [] [] [] [] [] [] []]; vm_compute; try done.
Qed.

Lemma read_value_number (fuel : nat) (c : ascii) (r : string) :
  c = "-"%char ∨ is_Some (digit_of c) →
  read_value (S fuel) (String c r) =
  '(n, r') ← read_int (String c r); Some (JNum n, r').
Proof.
  intros [->|H]; [reflexivity|].
  simpl. rewrite (digit_not_ws c H), (bool_decide_eq_true_2 _ H), orb_true_r.
  reflexivity.
Qed.

Lemma read_value_string (fuel : nat) (r : string) :
  read_value (S fuel) (String dquote r) =
  '(str, r') ← read_string EmptyString r; Some (JStr str, r').
Proof. reflexivity. Qed.

Lemma read_value_array (fuel : nat) (r : string) :
  read_value (S fuel) (String "[" r) =
  match skip_ws r with
  | String c' r' =>
      if decide (c' = "]"%char) then Some (JArr [], r')
      else read_items fuel [] r
  | EmptyString => None
  end.
Proof. reflexivity. Qed.

Lemma read_value_object (fuel : nat) (r : string) :
  read_value (S fuel) (String "{" r) =
  match skip_ws r with
  | String c' r' =>
      if decide (c' = "}"%char) then Some (JObj [], r')
      else read_members fuel [] r
  | EmptyString => None
  end.
Proof. reflexivity. Qed.

Lemma read_items_step (fuel : nat) (acc : list JSValue) (s : string) :
  read_items (S fuel) acc s =
  '(v, r) ← read_value fuel s;
  match skip_ws r with
  | String c r' =>
      if decide (c = ","%char) then read_items fuel (acc ++ [v]) r'
      else if decide (c = "]"%char) then Some (JArr (acc ++ [v]), r')
      else None
  | EmptyString => None
  end.
Proof. reflexivity. Qed.

Lemma read_members_step (fuel : nat) (acc : list (string * JSValue))
    (r : string) :
  read_members (S fuel) acc (String dquote r) =
  '(k, r1) ← read_string EmptyString r;
  match skip_ws r1 with
  | String c1 r2 =>
      if decide (c1 = ":"%char) then
        '(v, r3) ← read_value fuel r2;
        match skip_ws r3 with
        | String c3 r4 =>
            if decide (c3 = ","%char)
            then read_members fuel (acc ++ [(k, v)]) r4
            else if decide (c3 = "}"%char)
            then Some (JObj (acc ++ [(k, v)]), r4)
            else None
        | EmptyString => None
        end
      else None
  | EmptyString => None
  end.
Proof. reflexivity. Qed.

Lemma JSON_text_head (v : JSValue) (rest : string) :
  ∃ c t, JSON_text v +:+ rest = String c t ∧ starts_value c = true.
Proof.
  destruct v as [ | |[]|n|s|items|props]; try (by eexists _, _).
  destruct (read_int_pretty n EmptyString I) as (c & t & Heq & Hc & _).
  rewrite str_app_nil_r in Heq. simpl JSON_text. rewrite Heq.
  exists c, (t +:+ rest). split; [done|].
  unfold starts_value. destruct Hc as [->|Hc]; [done|].
  by rewrite (bool_decide_eq_true_2 _ Hc), orb_true_r.
Qed.

Lemma join_cons (sep c : string) (cells : list string) :
  cells ≠ [] → join sep (c :: cells) = c +:+ sep +:+ join sep cells.
Proof. by destruct cells. Qed.

Lemma read_items_texts (items : list JSValue) :
  Forall reads_back items → items ≠ [] →
  ∀ acc fuel rest,
    (String.length (join "," (List.map JSON_text items)) + 1 < fuel)%nat →
    read_items fuel acc
      (join "," (List.map JSON_text items) +:+ "]" +:+ rest)
    = Some (JArr (acc ++ List.map json_norm items), rest).
Proof.
  intros Hall. induction Hall as [|x items Hx Hall IH]; [done|].
  intros _ acc [|fuel] rest Hfuel; [lia|].
  rewrite read_items_step.
  destruct items as [|y items].
  - simpl in *. rewrite Hx; [|lia|done]. reflexivity.
  - change (List.map JSON_text (x :: y :: items))
      with (JSON_text x :: List.map JSON_text (y :: items)) in *.
    rewrite join_cons in * by done.
    set (J := join "," (List.map JSON_text (y :: items))) in *.
    rewrite !str_length_app in Hfuel. simpl in Hfuel.
    rewrite !str_app_assoc. rewrite Hx; [|lia|done].
    specialize (IH ltac:(done) (acc ++ [json_norm x]) fuel rest ltac:(lia)).
    rewrite <- app_assoc in IH. exact IH.
Qed.

Lemma member_texts_cons (k : string) (x : JSValue)
    (ps : list (string * JSValue)) :
  x ≠ JUndefined →
  member_texts ((k, x) :: ps) =
    (json_quote k +:+ ":" +:+ JSON_text x) :: member_texts ps
  ∧ members_norm ((k, x) :: ps) = (k, json_norm x) :: members_norm ps.
Proof. by destruct x. Qed.

Lemma member_texts_nil (ps : list (string * JSValue)) :
  member_texts ps = [] → members_norm ps = [].
Proof.
  induction ps as [|[k x] ps IH]; [done|]. by destruct x.
Qed.

Lemma member_texts_head (props : list (string * JSValue)) (rest : string) :
  member_texts props ≠ [] →
  ∃ t, join "," (member_texts props) +:+ rest = String dquote t.
Proof.
  induction props as [|[k x] props IH]; [done|].
  assert (x = JUndefined ∨ x ≠ JUndefined) as [->|Hdef]
    by (destruct x; auto).
  { exact IH. }
  destruct (member_texts_cons k x props Hdef) as [-> _]. intros _.
  destruct (member_texts props); eexists; reflexivity.
Qed.

Lemma read_members_texts (props : list (string * JSValue)) :
  Forall (λ kv, reads_back kv.2) props → member_texts props ≠ [] →
  ∀ acc fuel rest,
    (String.length (join "," (member_texts props)) + 1 < fuel)%nat →
    read_members fuel acc (join "," (member_texts props) +:+ "}" +:+ rest)
    = Some (JObj (acc ++ members_norm props), rest).
Proof.
  intros Hall. induction Hall as [|[k x] props Hx Hall IH]; [done|].
  assert (x = JUndefined ∨ x ≠ JUndefined) as [->|Hdef]
    by (destruct x; auto).
  { exact IH. }
  destruct (member_texts_cons k x props Hdef) as [-> ->].
  intros _ acc [|fuel] rest Hfuel; [lia|].
  simpl in Hx.
  destruct (member_texts props) as [|m ms] eqn:Hms.
  - rewrite (member_texts_nil props Hms).
    simpl join in *. rewrite !str_length_app in Hfuel. simpl in Hfuel.
    rewrite !str_app_assoc, read_string_quoted, read_members_step.
    rewrite read_string_escaped. simpl. rewrite !str_app_nil_l.
    rewrite Hx; [|lia|done]. reflexivity.
  - rewrite join_cons in * by done.
    set (J := join "," (m :: ms)) in *.
    rewrite !str_length_app in Hfuel. simpl in Hfuel.
    rewrite !str_length_app in Hfuel. simpl in Hfuel.
    rewrite !str_app_assoc, read_string_quoted, read_members_step.
    rewrite read_string_escaped. simpl. rewrite !str_app_nil_l.
    rewrite Hx; [|lia|done].
    specialize (IH ltac:(done) (acc ++ [(k, json_norm x)]) fuel rest ltac:(lia)).
    rewrite <- app_assoc in IH. exact IH.
Qed.

Lemma read_value_text (v : JSValue) : reads_back v.
Proof.
  induction v as [ | |b|n|s|items IH|props IH] using JSValue_induction;
    intros [|fuel] rest Hfuel Hrest; try (simpl in Hfuel; lia).
  - reflexivity.
  - reflexivity.
  - by destruct b.
  - destruct (read_int_pretty n rest Hrest) as (c & t & Heq & Hc & Hread).
    simpl JSON_text. rewrite Heq in *.
    rewrite read_value_number by done. by rewrite Hread.
  - simpl JSON_text. rewrite read_string_quoted, read_value_string.
    by rewrite read_string_escaped.
  - assert (String.length (join "," (List.map JSON_text items)) + 2 < S fuel)%nat
      as Hlen.
    { change (JSON_text (JArr items))
        with (String "[" (join "," (List.map JSON_text items) +:+ "]"))
        in Hfuel.
      pose proof (str_length_app (join "," (List.map JSON_text items)) "]")
        as Happ.
      change (String.length "]") with 1%nat in Happ.
      change (String.length (String ?c ?s)) with (S (String.length s))
        in Hfuel.
      lia. }
    change (read_value (S fuel)
              (String "[" ((join "," (List.map JSON_text items) +:+ "]")
                           +:+ rest))
            = Some (json_norm (JArr items), rest)).
    rewrite read_value_array.
    destruct items as [|x items]; [reflexivity|].
    rewrite str_app_assoc.
    assert (∃ c t, join "," (List.map JSON_text (x :: items))
                     +:+ "]" +:+ rest = String c t
                   ∧ starts_value c = true) as (c & t & Heq & Hc).
    { destruct items as [|y items].
      - apply JSON_text_head.
      - change (List.map JSON_text (x :: y :: items))
          with (JSON_text x :: List.map JSON_text (y :: items)).
        rewrite join_cons by done. rewrite !str_app_assoc.
        apply JSON_text_head. }
    destruct (starts_value_spec c Hc) as (Hws & Hclose & _).
    rewrite Heq, (skip_ws_head c t Hws), decide_False, <- Heq by done.
    rewrite (read_items_texts (x :: items) IH); [done|done|lia].
  - assert (String.length (join "," (member_texts props)) + 2 < S fuel)%nat
      as Hlen.
    { change (JSON_text (JObj props))
        with (String "{" (join "," (member_texts props) +:+ "}")) in Hfuel.
      pose proof (str_length_app (join "," (member_texts props)) "}")
        as Happ.
      change (String.length "}") with 1%nat in Happ.
      change (String.length (String ?c ?s)) with (S (String.length s))
        in Hfuel.
      lia. }
    rewrite json_norm_obj.
    change (read_value (S fuel)
              (String "{" ((join "," (member_texts props) +:+ "}") +:+ rest))
            = Some (JObj (members_norm props), rest)).
    rewrite read_value_object.
    rewrite str_app_assoc.
    destruct (member_texts props) as [|m ms] eqn:Hms.
    { by rewrite (member_texts_nil props Hms). }
    rewrite <- Hms in *.
    destruct (member_texts_head props ("}" +:+ rest)) as [t Heq];
      [by rewrite Hms|].
    rewrite Heq, skip_ws_head, decide_False, <- Heq by done.
    rewrite (read_members_texts props IH); [done|by rewrite Hms|lia].
Qed.

(** The reader gives back what [JSON.parse] gives for the text of [v]. *)
Lemma json_read_text (v : JSValue) :
  json_read (JSON_text v) = Some (json_norm v).
Proof.
  unfold json_read.
  rewrite <- (str_app_nil_r (JSON_text v)) at 2.
  rewrite read_value_text; [reflexivity|lia|done].
Qed.

(** ** The code writes standard CSV *)

Lemma join_concat (sep : string) (cells : list string) :
  join sep cells = String.concat sep cells.
Proof.
  induction cells as [|c cells IH]; [done|].
  destruct cells as [|c' cells]; [done|].
  rewrite join_cons by done. by rewrite IH.
Qed.

Lemma csv_cell_quoted (s : string) : csv_cell s = quoted_field s.
Proof.
  unfold csv_cell, quoted_field.
  assert (double_quotes s =
          String.concat EmptyString
            (List.map (λ c, if decide (c = dquote)
                            then String dquote (str1 dquote) else str1 c)
               (String.list_ascii_of_string s))) as <-; [|reflexivity].
  induction s as [|c s IH]; [done|].
  simpl double_quotes. simpl String.list_ascii_of_string. simpl List.map.
  assert (∀ x l, l ≠ [] →
            String.concat EmptyString (x :: l)
            = x +:+ String.concat EmptyString l) as Hcons.
  { intros x [|y l] Hl; [done|]. reflexivity. }
  destruct s as [|c' s].
  - simpl. destruct (decide (c = dquote)); reflexivity.
  - rewrite Hcons by done. rewrite <- IH.
    destruct (decide (c = dquote)); reflexivity.
Qed.

Lemma csv_of_quoted (logs : list AuditEntry) :
  csv_of logs = quoted_table (csv_headers :: List.map csv_row logs).
Proof.
  unfold csv_of, quoted_table. rewrite join_concat. f_equal.
  apply List.map_ext. intros row. rewrite join_concat. f_equal.
  apply List.map_ext, csv_cell_quoted.
Qed.

Lemma csv_row_exported (e : AuditEntry) : exported_record e (csv_row e).
Proof.
  exists (JSON_stringify_string (data e)). split; [done|].
  destruct (data e) eqn:Hd; [done|..]; apply json_read_text.
Qed.



(** * C10: an export in an unknown format *)

Lemma manager_at_cap_new :
  AuthManager_new demo_env (storage_with_log 1000) = Some (Ok tt manager_at_cap).
Proof. vm_compute. reflexivity. Qed.

(** C10, as stated, fails: on a log of 1000 entries the export in an unknown
    format appends its entry and the oldest entry is evicted, so the log
    does not grow. *)
Lemma C10_counterexample :
  let s' := final (exportAuditLog demo_env "xml" manager_at_cap) in
  length (log manager_at_cap) = 1000%nat
  ∧ length (log s') = 1000%nat
  ∧ length (log s') ≠ S (length (log manager_at_cap)).
Proof.
  assert (length (log (final (exportAuditLog demo_env "xml" manager_at_cap)))
          = 1000%nat) as H by (vm_compute; reflexivity).
  assert (length (log manager_at_cap) = 1000%nat) as H0 by reflexivity.
  cbv zeta. rewrite H, H0. split_and!; [done|done|lia].
Qed.

(** C10, amended.  For a format other than [json] and [csv],
    [exportAuditLog(format)] hands no file to the browser and appends one
    [audit_log_exported] entry whose payload records the format and the
    number of entries at the call.  The log grows by one entry when it
    holds fewer than 1000; when it holds 1000, its oldest entry is evicted
    and it still holds 1000. *)
Theorem C10_export_unknown_format (env : Env) (s : State) (format : string) :
  format ≠ "json" → format ≠ "csv" →
  ∃ s' e,
    exportAuditLog env format s = Ok tt s'
    ∧ downloads s' = downloads s
    ∧ event e = "audit_log_exported"
    ∧ data e = export_payload format (length (log s))
    ∧ log s' = slice_last AUDIT_CAP (log s ++ [e])
    ∧ ((length (log s) < AUDIT_CAP)%nat →
       log s' = log s ++ [e] ∧ length (log s') = S (length (log s)))
    ∧ (length (log s) = AUDIT_CAP →
       log s' = drop 1 (log s) ++ [e] ∧ length (log s') = AUDIT_CAP).
Proof.
  intros Hj Hc.
  destruct (exportAuditLog_spec env format s) as (s2 & s' & Hrun & Happ & Hu2 & Hd & _).
  unfold exported_file in Hd. rewrite !decide_False in Hd by done.
  simpl in Hd. rewrite app_nil_r in Hd.
  pose proof (untouched_log _ _ Hu2) as Hlog2.
  change (log s2 = log s) in Hlog2.
  pose proof (appended_log _ _ _ Happ) as Hlog. rewrite Hlog2 in Hlog.
  exists s', (new_entry env s2 "audit_log_exported"
                (export_payload format (length (log s)))).
  split_and!.
  - exact Hrun.
  - by rewrite (appended_downloads _ _ _ Happ).
  - reflexivity.
  - reflexivity.
  - exact Hlog.
  - intros Hlt. rewrite Hlog, slice_last_all.
    + split; [done|]. rewrite length_app. simpl. lia.
    + rewrite length_app. simpl. lia.
  - intros Heq. rewrite Hlog. unfold slice_last.
    rewrite length_app, Heq. simpl length.
    replace (AUDIT_CAP + 1 - AUDIT_CAP)%nat with 1%nat by lia.
    rewrite drop_app_le by (rewrite Heq; unfold AUDIT_CAP; lia).
    split; [done|]. rewrite length_app, length_drop, Heq. simpl.
    unfold AUDIT_CAP. lia.
Qed.

Lemma C10_witness :
  ∃ s' e,
    exportAuditLog demo_env "xml" fresh_manager = Ok tt s'
    ∧ downloads s' = downloads fresh_manager
    ∧ event e = "audit_log_exported"
    ∧ data e = export_payload "xml" (length (log fresh_manager))
    ∧ log s' = slice_last AUDIT_CAP (log fresh_manager ++ [e])
    ∧ ((length (log fresh_manager) < AUDIT_CAP)%nat →
       log s' = log fresh_manager ++ [e]
       ∧ length (log s') = S (length (log fresh_manager)))
    ∧ (length (log fresh_manager) = AUDIT_CAP →
       log s' = drop 1 (log fresh_manager) ++ [e]
       ∧ length (log s') = AUDIT_CAP).
Proof.
  apply (C10_export_unknown_format demo_env fresh_manager "xml").
  - discriminate.
  - discriminate.
Defined.

(** * Further properties of the permission check *)

(** [hasPermission] returns or throws in the state it was called in. *)
Lemma hasPermission_outcome (P : string) (s : State) :
  (∃ b, hasPermission P s = Ok b s) ∨ (∃ e, hasPermission P s = Threw e s).
Proof.
  unfold hasPermission. unfold_monad.
  destruct (truthy (currentUser s)); simpl; [|by left; eexists].
  destruct (get_prop (currentUser s) "role") as [e|r]; simpl;
    [by right; eexists|].
  destruct (roles_get (ToString r)) as [R|k|];
    [|by right; eexists|by left; eexists].
  destruct (includes (permissions R) "*"); [by left; eexists|].
  destruct (includes (permissions R) P); [by left; eexists|].
  destruct (negb _); by left; eexists.
Qed.

(** [hasPermission] only reads: whether it returns or throws, it leaves the
    session, the log, the storage and everything else as they were. *)
Theorem hasPermission_reads_only (P : string) (s : State) :
  final (hasPermission P s) = s.
Proof.
  destruct (hasPermission_outcome P s) as [[b Hrun]|[e Hrun]].
  - by rewrite Hrun.
  - by rewrite Hrun.
Qed.


Lemma str_drop_app (s t : string) :
  str_drop (String.length s) (s +:+ t) = t.
Proof. induction s as [|c s IH]; [by destruct t|]. exact IH. Qed.

Lemma last_two_app (s : string) : last_two (s +:+ ":*") = ":*".
Proof.
  unfold last_two. rewrite str_length_app. simpl String.length.
  replace (String.length s + 2 - 2)%nat with (String.length s) by lia.
  apply str_drop_app.
Qed.

(** No registered role lists a category wildcard. *)
Lemma no_category_wildcard (k : string) (R : Role) (category : string) :
  roles !! k = Some R → category +:+ ":*" ∉ permissions R.
Proof.
  intros HR Hin.
  assert (Forall (λ q, last_two q ≠ ":*") (permissions R)) as Hall.
  { unfold roles in HR.
    repeat (apply lookup_insert_Some in HR as [[_ <-]|[_ HR]];
            [by_compute|]).
    by rewrite lookup_empty in HR. }
  rewrite Forall_forall in Hall. apply (Hall _ Hin), last_two_app.
Qed.

(** For a session with one of the six registered roles, [hasPermission(P)]
    is true exactly when the role lists [*] or lists [P] itself: with the
    permissions the roles have, the category wildcard never grants
    anything. *)
Theorem hasPermission_listed_only (s : State) (r : JSValue) (R : Role)
    (P : string) :
  truthy (currentUser s) = true →
  get_prop (currentUser s) "role" = inr r →
  roles !! ToString r = Some R →
  hasPermission P s =
  Ok (bool_decide ("*" ∈ permissions R ∨ P ∈ permissions R)) s.
Proof.
  intros Hcu Hrole HR.
  rewrite (hasPermission_registered_role s r R P Hcu Hrole HR). f_equal.
  apply bool_decide_ext. split; [|tauto].
  intros [H|[H|H]]; [tauto|tauto|].
  by apply (no_category_wildcard _ _ _ HR) in H.
Qed.

Lemma hasPermission_listed_only_witness :
  hasPermission "view:reports" alice_logged_in =
  Ok (bool_decide ("*" ∈ permissions curator
                   ∨ "view:reports" ∈ permissions curator)) alice_logged_in.
Proof.
  apply (hasPermission_listed_only alice_logged_in (JStr "curator") curator
           "view:reports").
  - reflexivity.
  - reflexivity.
  - reflexivity.
Defined.

Lemma admin_may_do_anything_witness :
  hasPermission "delete:artifacts" dana_logged_in = Ok true dana_logged_in.
Proof.
  apply (admin_may_do_anything dana_logged_in "delete:artifacts").
  - reflexivity.
  - reflexivity.
Defined.

(** When [hasPermission(P)] returns true, [requirePermission(P, action)]
    returns true and changes nothing.  When it returns false,
    [requirePermission] returns false, shows one error naming the action and
    the permission, and appends one [permission_denied] entry whose payload
    is the permission, the action and the user name of the session. *)
Theorem requirePermission_spec (env : Env) (P action : string) (s : State)
    (granted : bool) :
  hasPermission P s = Ok granted s →
  if granted then requirePermission env P action s = Ok true s
  else ∃ s' e,
      requirePermission env P action s = Ok false s'
      ∧ log s' = slice_last AUDIT_CAP (log s ++ [e])
      ∧ event e = "permission_denied"
      ∧ data e = JObj [("permission", JStr P); ("action", JStr action);
                       ("userId", get_opt (currentUser s) "username")]
      ∧ alerts s' =
        alerts s ++ ["Error: You don't have permission to " +:+ action +:+
                     ". Required: " +:+ P]
      ∧ currentUser s' = currentUser s.
Proof.
  intros Hhas. unfold requirePermission, showError. unfold_monad.
  rewrite Hhas. destruct granted; simpl; [done|].
  step_logAudit s' Heq Happ.
  eexists s', _. split_and!.
  - reflexivity.
  - apply (appended_log _ _ _ Happ).
  - reflexivity.
  - reflexivity.
  - by rewrite (appended_alerts _ _ _ Happ).
  - by rewrite (appended_user _ _ _ Happ).
Qed.

Lemma requirePermission_spec_witness :
  ∃ s' e,
    requirePermission demo_env "approve:deaccession" "approve removal"
      alice_logged_in = Ok false s'
    ∧ log s' = slice_last AUDIT_CAP (log alice_logged_in ++ [e])
    ∧ event e = "permission_denied"
    ∧ data e = JObj [("permission", JStr "approve:deaccession");
                     ("action", JStr "approve removal");
                     ("userId", get_opt (currentUser alice_logged_in) "username")]
    ∧ alerts s' =
      alerts alice_logged_in ++
      ["Error: You don't have permission to " +:+ "approve removal" +:+
       ". Required: " +:+ "approve:deaccession"]
    ∧ currentUser s' = currentUser alice_logged_in.
Proof.
  apply (requirePermission_spec demo_env "approve:deaccession"
           "approve removal" alice_logged_in false).
  reflexivity.
Defined.

(** * Further properties of the session lifecycle *)

(** [loadSession] never throws, and it leaves the session in memory and the
    persisted one in agreement: when a non-empty [fw-auth] text remains, the
    current user is what that text parses to. *)
Theorem loadSession_returns_and_agrees (env : Env) (s : State) :
  ∃ s', loadSession env s = Ok tt s'
        ∧ (text_falsy (localStorage s' !! "fw-auth") = false →
           ∃ text, localStorage s' !! "fw-auth" = Some text
                   ∧ JSON_parse text = inr (currentUser s')).
Proof.
  unfold loadSession, getItem. unfold_monad.
  destruct (text_falsy (localStorage s !! "fw-auth")) eqn:Hf; simpl.
  { exists s. split; [done|]. by rewrite Hf. }
  destruct (localStorage s !! "fw-auth") as [text|] eqn:Hst; [|done]. simpl.
  assert (∀ s0, ∃ s', clearSession s0 = Ok tt s'
            ∧ (text_falsy (localStorage s' !! "fw-auth") = false →
               ∃ text, localStorage s' !! "fw-auth" = Some text
                       ∧ JSON_parse text = inr (currentUser s'))) as Hclear.
  { intros s0. eexists. split; [reflexivity|]. simpl.
    by rewrite lookup_delete_eq. }
  destruct (JSON_parse text) as [e|v] eqn:Hparse; simpl; [apply Hclear|].
  destruct (get_prop v "username") as [e|u] eqn:Hu; simpl; [apply Hclear|].
  rewrite (get_prop_defined _ _ _ "role" Hu); simpl.
  step_logAudit s1 Heq Happ. unfold Date_now; simpl.
  rewrite (appended_user _ _ _ Happ); simpl.
  rewrite (get_prop_defined _ _ _ "timestamp" Hu); simpl.
  assert (∃ text, localStorage
            (set_clockReads (S (clockReads s1)) s1) !! "fw-auth" = Some text
          ∧ JSON_parse text = inr (currentUser s1)) as Hkept.
  { exists text. simpl. rewrite (appended_storage _ _ _ Happ).
    rewrite lookup_insert_ne by done. simpl.
    by rewrite Hst, (appended_user _ _ _ Happ). }
  assert (∀ s0, ∃ s', logout env "Session expired" s0 = Ok tt s'
            ∧ (text_falsy (localStorage s' !! "fw-auth") = false →
               ∃ text, localStorage s' !! "fw-auth" = Some text
                       ∧ JSON_parse text = inr (currentUser s'))) as Hlogout.
  { intros s0. unfold logout, clearSession, redirectToLogin, removeItem, setItem.
    unfold_monad. step_logAudit s2 Heq2 Happ2.
    eexists. split; [reflexivity|]. simpl.
    rewrite !lookup_insert_ne by done. by rewrite lookup_delete_eq. }
  destruct (Date_getTime env (get_opt v "timestamp")) as [t|].
  - destruct (decide _).
    + destruct (Hlogout (set_clockReads (S (clockReads s1)) s1))
        as (s' & -> & Hs'). by exists s'.
    + eexists. split; [reflexivity|]. intros _. exact Hkept.
  - eexists. split; [reflexivity|]. intros _. exact Hkept.
Qed.

(** A persisted session that is not older than 24 hours, or whose age
    cannot be computed, is installed by [loadSession]. *)
Lemma loadSession_accepts (env : Env) (s : State) (text : Text)
    (session ts : JSValue) :
  localStorage s !! "fw-auth" = Some text →
  JSON_parse text = inr session →
  get_prop session "timestamp" = inr ts →
  match Date_getTime env ts with
  | Some t => (clock env (clockReads s + 2) - t ≤ session_max_age)%Z
  | None => True
  end →
  ∃ s' e,
    loadSession env s = Ok tt s'
    ∧ currentUser s' = session
    ∧ localStorage s' !! "fw-auth" = Some text
    ∧ navigation s' = navigation s
    ∧ log s' = slice_last AUDIT_CAP (log s ++ [e])
    ∧ event e = "session_loaded"
    ∧ data e = JObj [("userId", get_opt session "username");
                     ("role", get_opt session "role")].
Proof.
  intros Hstored Hparse Hts Hfresh.
  assert (text_falsy (Some text) = false) as Hfalsy.
  { destruct text; [done|reflexivity]. }
  unfold loadSession, getItem. unfold_monad. rewrite Hstored, Hfalsy; simpl.
  rewrite Hparse; simpl.
  rewrite (get_prop_defined _ _ _ "username" Hts); simpl.
  rewrite (get_prop_defined _ _ _ "role" Hts); simpl.
  step_logAudit s1 Heq1 Happ1.
  unfold Date_now; simpl.
  rewrite (appended_user _ _ _ Happ1); simpl. rewrite Hts; simpl.
  rewrite (appended_clock _ _ _ Happ1).
  assert (∃ s' e,
    Ok tt (set_clockReads (S (clockReads s + 2)) s1) = Ok tt s'
    ∧ currentUser s' = session
    ∧ localStorage s' !! "fw-auth" = Some text
    ∧ navigation s' = navigation s
    ∧ log s' = slice_last AUDIT_CAP (log s ++ [e])
    ∧ event e = "session_loaded"
    ∧ data e = JObj [("userId", get_opt session "username");
                     ("role", get_opt session "role")]) as Hdone.
  { eexists _, _. split; [reflexivity|]. simpl. split_and!.
    - by rewrite (appended_user _ _ _ Happ1).
    - rewrite (appended_storage _ _ _ Happ1).
      by rewrite lookup_insert_ne.
    - by rewrite (appended_navigation _ _ _ Happ1).
    - apply (appended_log _ _ _ Happ1).
    - reflexivity.
    - reflexivity. }
  destruct (Date_getTime env ts) as [t|]; [|exact Hdone].
  change (clockReads (set_currentUser session s)) with (clockReads s).
  rewrite decide_False by lia. exact Hdone.
Qed.

(** A persisted session whose timestamp is at most 24 hours before the
    clock reading of the age check (exactly 24 hours included) is restored
    by [loadSession]: it becomes the current user, stays persisted, no
    redirect is started, and one [session_loaded] entry is appended. *)
Theorem loadSession_restores_fresh_session (env : Env) (s : State)
    (text : Text) (session ts : JSValue) (t : Z) :
  localStorage s !! "fw-auth" = Some text →
  JSON_parse text = inr session →
  get_prop session "timestamp" = inr ts →
  Date_getTime env ts = Some t →
  (clock env (clockReads s + 2) - t ≤ session_max_age)%Z →
  ∃ s' e,
    loadSession env s = Ok tt s'
    ∧ currentUser s' = session
    ∧ localStorage s' !! "fw-auth" = Some text
    ∧ navigation s' = navigation s
    ∧ log s' = slice_last AUDIT_CAP (log s ++ [e])
    ∧ event e = "session_loaded"
    ∧ data e = JObj [("userId", get_opt session "username");
                     ("role", get_opt session "role")].
Proof.
  intros Hstored Hparse Hts Ht Hfresh.
  apply (loadSession_accepts env s text session ts Hstored Hparse Hts).
  by rewrite Ht.
Qed.

Lemma loadSession_restores_fresh_session_witness :
  ∃ s' e,
    loadSession demo_env page_with_fresh_session = Ok tt s'
    ∧ currentUser s' = currentUser alice_logged_in
    ∧ localStorage s' !! "fw-auth" =
      Some (Stringified (currentUser alice_logged_in))
    ∧ navigation s' = navigation page_with_fresh_session
    ∧ log s' = slice_last AUDIT_CAP (log page_with_fresh_session ++ [e])
    ∧ event e = "session_loaded"
    ∧ data e = JObj [("userId", get_opt (currentUser alice_logged_in) "username");
                     ("role", get_opt (currentUser alice_logged_in) "role")].
Proof.
  apply (loadSession_restores_fresh_session demo_env page_with_fresh_session
           (Stringified (currentUser alice_logged_in))
           (currentUser alice_logged_in)
           (JStr "2024-01-02T01:00:00.000Z") demo_now).
  - reflexivity.
  - reflexivity.
  - reflexivity.
  - reflexivity.
  - vm_compute. discriminate.
Defined.



(** [logout(reason)] in any state: the session is removed from memory and
    storage, the return address and the message [Please log in to continue]
    are stored for the login page (the reason is not), the navigation to
    [login.html] starts, and the last entry of the log is a [user_logout]
    entry with the reason, in the name of the user who was logged in. *)
Theorem logout_spec (env : Env) (reason : string) (s : State) :
  ∃ s' e,
    logout env reason s = Ok tt s'
    ∧ currentUser s' = JNull
    ∧ localStorage s' !! "fw-auth" = None
    ∧ localStorage s' !! "fw-auth-redirect" = Some (Verbatim (location_href env))
    ∧ localStorage s' !! "fw-auth-message" =
      Some (Verbatim "Please log in to continue")
    ∧ navigation s' = Some "login.html"
    ∧ log s' = slice_last AUDIT_CAP (log s ++ [e])
    ∧ event e = "user_logout"
    ∧ data e = JObj [("reason", JStr reason)]
    ∧ userId e = js_or (get_opt (currentUser s) "username") (JStr "anonymous").
Proof.
  unfold logout, clearSession, redirectToLogin, removeItem, setItem.
  unfold_monad. step_logAudit s1 Heq Happ.
  eexists _, _. split; [reflexivity|]. simpl. split_and!.
  - done.
  - rewrite !lookup_insert_ne by done. apply lookup_delete_eq.
  - rewrite lookup_insert_ne by done. apply lookup_insert_eq.
  - apply lookup_insert_eq.
  - done.
  - apply (appended_log _ _ _ Happ).
  - reflexivity.
  - reflexivity.
  - reflexivity.
Qed.

Lemma logout_ends_session (env : Env) (reason : string) (s : State) :
  ∃ s', logout env reason s = Ok tt s'
        ∧ currentUser s' = JNull
        ∧ localStorage s' !! "fw-auth" = None.
Proof.
  unfold logout, clearSession, redirectToLogin, removeItem, setItem.
  unfold_monad. step_logAudit s1 Heq Happ.
  eexists. split; [reflexivity|]. simpl. split; [done|].
  rewrite !lookup_insert_ne by done. apply lookup_delete_eq.
Qed.

(** A logout lasts: over the storage [logout] leaves, in the same page or
    after a reload, [loadSession] finds no session and does nothing. *)
Theorem loadSession_after_logout (env env' : Env) (reason : string)
    (s s2 : State) :
  localStorage s2 = localStorage (final (logout env reason s)) →
  loadSession env' s2 = Ok tt s2.
Proof.
  intros Hst.
  destruct (logout_ends_session env reason s) as (s' & Hrun & _ & Hkey).
  rewrite Hrun in Hst. simpl in Hst.
  unfold loadSession, getItem. unfold_monad. by rewrite Hst, Hkey.
Qed.

Lemma loadSession_after_logout_witness :
  loadSession demo_env
    (final (logout demo_env "User initiated logout" alice_logged_in)) =
  Ok tt (final (logout demo_env "User initiated logout" alice_logged_in)).
Proof.
  apply (loadSession_after_logout demo_env demo_env "User initiated logout"
           alice_logged_in).
  reflexivity.
Defined.

(** [setSession] replaces whatever session there was, without checking the
    role, persists the new session, and logs [session_created] in the name
    of the new user, not of the previous one. *)
Theorem setSession_logs_new_user (env : Env) (u r n t : JSValue) (s : State) :
  ∃ s' e,
    setSession env u r n t s = Ok tt s'
    ∧ get_opt (currentUser s') "username" = u
    ∧ get_opt (currentUser s') "role" = r
    ∧ localStorage s' !! "fw-auth" = Some (Stringified (currentUser s'))
    ∧ log s' = slice_last AUDIT_CAP (log s ++ [e])
    ∧ event e = "session_created"
    ∧ userId e = js_or u (JStr "anonymous")
    ∧ userRole e = js_or r (JStr "guest").
Proof.
  unfold setSession, Date_now, setItem. unfold_monad. simpl.
  step_logAudit s' Heq Happ.
  eexists s', _. split; [reflexivity|].
  rewrite (appended_user _ _ _ Happ), (appended_storage _ _ _ Happ); simpl.
  split_and!.
  - reflexivity.
  - reflexivity.
  - rewrite lookup_insert_ne by done. by rewrite lookup_insert_eq.
  - apply (appended_log _ _ _ Happ).
  - reflexivity.
  - reflexivity.
  - reflexivity.
Qed.

(** The session timer never ends a session: a tick returns, and leaves the
    current user, the log, the storage and the location as they were, also
    when the session is older than 24 hours. *)
Theorem sessionTimerTick_changes_nothing (env : Env) (s : State) :
  ∃ warned s',
    sessionTimerTick env s = Ok warned s'
    ∧ currentUser s' = currentUser s
    ∧ log s' = log s
    ∧ localStorage s' = localStorage s
    ∧ navigation s' = navigation s.
Proof.
  unfold sessionTimerTick, Date_now. unfold_monad.
  destruct (truthy (currentUser s)) eqn:Hcu; simpl; [|by eexists _, _].
  destruct (get_prop (currentUser s) "timestamp") as [e|ts] eqn:Hts; simpl.
  { by destruct (currentUser s). }
  destruct (Date_getTime env ts); by eexists _, _.
Qed.

(** The value a tick returns for a session with a readable timestamp. *)
Lemma sessionTimerTick_warns (env : Env) (s : State) (ts : JSValue) (t : Z) :
  truthy (currentUser s) = true →
  get_prop (currentUser s) "timestamp" = inr ts →
  Date_getTime env ts = Some t →
  returned (sessionTimerTick env s) =
  Some (bool_decide
          (4 * 60 * 1000 < session_max_age - (clock env (clockReads s) - t)
           < 5 * 60 * 1000)%Z).
Proof.
  intros Hcu Hts Ht. unfold sessionTimerTick, Date_now. unfold_monad.
  rewrite Hcu; simpl. rewrite Hts; simpl. rewrite Ht; simpl. f_equal.
  apply eq_true_iff_eq. rewrite andb_true_iff, !bool_decide_eq_true. lia.
Qed.

(** Two ticks for the same session whose clock readings are a minute or
    more apart do not both show the expiry warning. *)
Theorem sessionTimerTick_warns_once (env : Env) (s1 s2 : State)
    (ts : JSValue) (t : Z) :
  truthy (currentUser s1) = true →
  currentUser s2 = currentUser s1 →
  get_prop (currentUser s1) "timestamp" = inr ts →
  Date_getTime env ts = Some t →
  (60 * 1000 ≤ clock env (clockReads s2) - clock env (clockReads s1))%Z →
  ¬ (returned (sessionTimerTick env s1) = Some true
     ∧ returned (sessionTimerTick env s2) = Some true).
Proof.
  intros Hcu Hsame Hts Ht Hgap [H1 H2].
  rewrite (sessionTimerTick_warns env s1 ts t Hcu Hts Ht) in H1.
  rewrite (sessionTimerTick_warns env s2 ts t) in H2; [|congruence..|done].
  injection H1 as H1. injection H2 as H2.
  apply bool_decide_eq_true in H1, H2. lia.
Qed.

Lemma sessionTimerTick_warns_once_witness :
  ¬ (returned (sessionTimerTick minute_env alice_logged_in) = Some true
     ∧ returned (sessionTimerTick minute_env
                   (set_clockReads (S (clockReads alice_logged_in))
                      alice_logged_in)) = Some true).
Proof.
  apply (sessionTimerTick_warns_once minute_env alice_logged_in
           (set_clockReads (S (clockReads alice_logged_in)) alice_logged_in)
           (JStr "2024-01-02T01:00:00.000Z") demo_now).
  - reflexivity.
  - reflexivity.
  - reflexivity.
  - reflexivity.
  - vm_compute. discriminate.
Defined.

(** * Further properties of the audit log *)

Lemma entry_of_to_json (e : AuditEntry) : entry_of_json (entry_to_json e) = Some e.
Proof. by destruct e. Qed.

Lemma log_of_to_json (l : list AuditEntry) : log_of_json (log_to_json l) = Some l.
Proof.
  unfold log_of_json, log_to_json.
  induction l as [|e l IH]; [done|].
  change (mapM entry_of_json (entry_to_json e :: List.map entry_to_json l)
          = Some (e :: l)).
  change (mapM entry_of_json (entry_to_json e :: List.map entry_to_json l))
    with (y ← entry_of_json (entry_to_json e);
          k ← mapM entry_of_json (List.map entry_to_json l); mret (y :: k)).
  by rewrite entry_of_to_json, IH.
Qed.

Lemma loadStoredAuditLog_json (v : JSValue) :
  loadStoredAuditLog (Some (Stringified v)) = log_of_json (json_norm v).
Proof. reflexivity. Qed.

(** After [logAudit], the persisted log is the log in memory; when no entry
    carries an [undefined] value, a manager constructed over the storage
    (the page reloaded) starts with exactly this log. *)
Theorem logAudit_persists_log (env : Env) (ev : string) (d : JSValue)
    (s : State) :
  let s' := final (logAudit env ev d s) in
  Forall (λ e, entry_safe e = true) (log s') →
  localStorage s' !! "fw-audit-log" = Some (Stringified (log_to_json (log s')))
  ∧ loadStoredAuditLog (localStorage s' !! "fw-audit-log") = Some (log s')
  ∧ ∃ s0, constructed (localStorage s') = Some s0 ∧ log s0 = log s'.
Proof.
  destruct (logAudit_spec env ev d s) as (s' & -> & Happ). simpl.
  intros Hsafe.
  assert (localStorage s' !! "fw-audit-log"
          = Some (Stringified (log_to_json (log s')))) as Hst.
  { rewrite (appended_storage _ _ _ Happ) at 1. apply lookup_insert_eq. }
  assert (loadStoredAuditLog (localStorage s' !! "fw-audit-log")
          = Some (log s')) as Hload.
  { rewrite Hst, loadStoredAuditLog_json, json_norm_log by done.
    apply log_of_to_json. }
  split_and!; [done|done|].
  unfold constructed. rewrite Hload. simpl. eexists. split; [reflexivity|].
  unfold log, array_at. simpl. by rewrite lookup_singleton_eq.
Qed.

Lemma logAudit_persists_log_witness :
  let s' := final (logAudit demo_env "page_view" (JObj []) fresh_manager) in
  localStorage s' !! "fw-audit-log" = Some (Stringified (log_to_json (log s')))
  ∧ loadStoredAuditLog (localStorage s' !! "fw-audit-log") = Some (log s')
  ∧ ∃ s0, constructed (localStorage s') = Some s0 ∧ log s0 = log s'.
Proof.
  apply (logAudit_persists_log demo_env "page_view" (JObj []) fresh_manager).
  vm_compute. repeat constructor.
Defined.

Lemma filter_filter (p q : AuditEntry → bool) (l : list AuditEntry) :
  List.filter q (List.filter p l) = List.filter (λ e, p e && q e) l.
Proof.
  induction l as [|x l IH]; [done|]. simpl.
  destruct (p x); simpl; [|done]. destruct (q x); by rewrite IH.
Qed.

Lemma filter_true (l : list AuditEntry) : List.filter (λ _, true) l = l.
Proof. induction l as [|x l IH]; [done|]. simpl. by rewrite IH. Qed.

Lemma keep_if_filter (f : option string) (p : string → AuditEntry → bool)
    (l : list AuditEntry) :
  keep_if f p l =
  List.filter (λ e, match given f with Some x => p x e | None => true end) l.
Proof. unfold keep_if. destruct (given f); [done|]. by rewrite filter_true. Qed.

(** The entries [getAuditLog] returns, before it sorts them. *)
Lemma query_sorts_matches (env : Env) (filters : Filters) (l : list AuditEntry) :
  query env filters l =
  sort_by (newest_first env) (List.filter (matches env filters) l).
Proof.
  unfold query. rewrite !keep_if_filter, !filter_filter. f_equal.
  apply List.filter_ext. intros e. unfold matches.
  by rewrite !andb_assoc.
Qed.

(** [getAuditLog(filters)] returns exactly the entries of the log that pass
    every given filter, each as often as it is in the log. *)
Theorem getAuditLog_returns_the_matches (env : Env) (filters : Filters)
    (s : State) :
  ∃ l s', getAuditLog env filters s = Ok l s'
          ∧ array_at s' l ≡ₚ List.filter (matches env filters) (log s).
Proof.
  destruct (getAuditLog_yields env filters s) as (l & s' & Hrun & _ & _ & Hc).
  exists l, s'. split; [done|]. unfold array_at. rewrite Hc. simpl.
  rewrite query_sorts_matches. apply sort_by_perm.
Qed.

Lemma not_older_newest_first (env : Env) (a b : AuditEntry) :
  is_Some (time_of env a) → is_Some (time_of env b) →
  (newest_first env a b = true ↔ not_older env a b)
  ∧ (newest_first env a b = false → not_older env b a).
Proof.
  unfold newest_first, not_older, time_of. intros [ta Ha] [tb Hb].
  rewrite Ha, Hb. split; [split|].
  - intros H%bool_decide_eq_true. exists ta, tb. split_and!; [done|done|lia].
  - intros (ta' & tb' & [= <-] & [= <-] & H). apply bool_decide_eq_true. lia.
  - intros H%bool_decide_eq_false. exists tb, ta. split_and!; [done|done|lia].
Qed.

Lemma not_older_trans (env : Env) (a b c : AuditEntry) :
  not_older env a b → not_older env b c → not_older env a c.
Proof.
  intros (ta & tb & Ha & Hb & Hab) (tb' & tc & Hb' & Hc & Hbc).
  exists ta, tc. split_and!; [done|done|]. rewrite Hb in Hb'.
  injection Hb' as <-. lia.
Qed.

Lemma sort_insert_sorted (env : Env) (x : AuditEntry) (l : list AuditEntry) :
  is_Some (time_of env x) → Forall (λ e, is_Some (time_of env e)) l →
  StronglySorted (not_older env) l →
  StronglySorted (not_older env) (sort_insert (newest_first env) x l).
Proof.
  intros Hx Hl Hs. induction Hs as [|y l Hs IH Hy]; simpl.
  - by repeat constructor.
  - apply Forall_cons in Hl as [Hvy Hl].
    destruct (not_older_newest_first env x y Hx Hvy) as [Hle Hgt].
    destruct (newest_first env x y) eqn:Hxy.
    + assert (not_older env x y) as Hxy' by (by apply Hle).
      constructor; [by constructor|].
      constructor; [done|].
      eapply Forall_impl; [exact Hy|]. intros z Hz.
      by eapply not_older_trans.
    + constructor; [by apply IH|].
      rewrite sort_insert_perm. constructor; [by apply Hgt|done].
Qed.

(** When the timestamp of every entry of the log is a date, the entries
    [getAuditLog] returns are ordered newest first. *)
Theorem getAuditLog_newest_first (env : Env) (filters : Filters) (s : State) :
  Forall (λ e, is_Some (time_of env e)) (log s) →
  ∃ l s', getAuditLog env filters s = Ok l s'
          ∧ StronglySorted (not_older env) (array_at s' l).
Proof.
  intros Hvalid.
  destruct (getAuditLog_yields env filters s) as (l & s' & Hrun & _ & _ & Hc).
  exists l, s'. split; [done|]. unfold array_at. rewrite Hc. simpl.
  rewrite query_sorts_matches. clear Hc Hrun.
  revert Hvalid. generalize (log s). intros entries Hvalid.
  assert (Forall (λ e, is_Some (time_of env e))
            (List.filter (matches env filters) entries)) as Hf.
  { induction Hvalid as [|x l0 Hx Hl IH]; simpl; [constructor|].
    destruct (matches env filters x); [by constructor|done]. }
  revert Hf. generalize (List.filter (matches env filters) entries).
  intros kept Hf.
  induction Hf as [|x l0 Hx Hl IH]; simpl; [constructor|].
  apply sort_insert_sorted; [done| |done].
  by rewrite sort_by_perm.
Qed.

Lemma getAuditLog_newest_first_witness :
  List.map event (log manager_with_history)
  = ["api_request"; "session_created"; "page_view"]
  ∧ ∃ l s',
      getAuditLog demo_env no_filters manager_with_history = Ok l s'
      ∧ StronglySorted (not_older demo_env) (array_at s' l)
      ∧ List.map event (array_at s' l)
        = ["session_created"; "page_view"; "api_request"].
Proof.
  split; [reflexivity|].
  destruct (getAuditLog_newest_first demo_env no_filters manager_with_history)
    as (l & s' & Hrun & Hsorted).
  { vm_compute. repeat constructor; by eexists. }
  exists l, s'. split_and!; [done|done|].
  vm_compute in Hrun. injection Hrun as <- <-. reflexivity.
Defined.

Lemma sort_insert_at_time (env : Env) (t : Z) (x : AuditEntry)
    (l : list AuditEntry) :
  List.filter (at_time env t) (sort_insert (newest_first env) x l) =
  List.filter (at_time env t) (x :: l).
Proof.
  induction l as [|y l IH]; [done|]. simpl sort_insert.
  destruct (newest_first env x y) eqn:Hxy; [done|].
  change (List.filter (at_time env t) (y :: sort_insert (newest_first env) x l))
    with (if at_time env t y
          then y :: List.filter (at_time env t) (sort_insert (newest_first env) x l)
          else List.filter (at_time env t) (sort_insert (newest_first env) x l)).
  rewrite IH. simpl.
  destruct (at_time env t x) eqn:Hx, (at_time env t y) eqn:Hy; try done.
  unfold at_time, time_of in Hx, Hy.
  apply bool_decide_eq_true in Hx, Hy. unfold newest_first in Hxy.
  rewrite Hx, Hy in Hxy. apply bool_decide_eq_false in Hxy. lia.
Qed.

(** When the timestamp of every entry of the log is a date, [getAuditLog]
    keeps entries of the same instant in the order of the log: among the
    entries logged in one millisecond, the ones logged first come first. *)
Theorem getAuditLog_keeps_order_within_an_instant (env : Env)
    (filters : Filters) (s : State) (t : Z) :
  Forall (λ e, is_Some (time_of env e)) (log s) →
  ∃ l s', getAuditLog env filters s = Ok l s'
          ∧ List.filter (at_time env t) (array_at s' l) =
            List.filter (at_time env t)
              (List.filter (matches env filters) (log s)).
Proof.
  intros _.
  destruct (getAuditLog_yields env filters s) as (l & s' & Hrun & _ & _ & Hc).
  exists l, s'. split; [done|]. unfold array_at. rewrite Hc. simpl.
  rewrite query_sorts_matches.
  induction (List.filter (matches env filters) (log s)) as [|x l0 IH];
    [done|].
  simpl sort_by. rewrite sort_insert_at_time. simpl. by rewrite IH.
Qed.

Lemma getAuditLog_keeps_order_within_an_instant_witness :
  List.map event (log manager_with_history)
  = ["api_request"; "session_created"; "page_view"]
  ∧ ∃ l s',
      getAuditLog demo_env no_filters manager_with_history = Ok l s'
      ∧ List.filter (at_time demo_env demo_now) (array_at s' l) =
        List.filter (at_time demo_env demo_now)
          (List.filter (matches demo_env no_filters)
             (log manager_with_history))
      ∧ List.map event (List.filter (at_time demo_env demo_now) (array_at s' l))
        = ["session_created"; "page_view"].
Proof.
  split; [reflexivity|].
  destruct (getAuditLog_keeps_order_within_an_instant demo_env no_filters
              manager_with_history demo_now)
    as (l & s' & Hrun & Horder).
  { vm_compute. repeat constructor; by eexists. }
  exists l, s'. split_and!; [done|done|].
  vm_compute in Hrun. injection Hrun as <- <-. reflexivity.
Defined.

(** * Further properties of the route guard and of the clients *)

(** [lacks p] returns true without a session, and otherwise the negation of
    what [hasPermission(p)] returns; it changes nothing. *)
Lemma lacks_spec (p : string) (s : State) :
  (truthy (currentUser s) = false ∧ lacks p s = Ok true s)
  ∨ (truthy (currentUser s) = true
     ∧ ((∃ b, hasPermission p s = Ok b s ∧ lacks p s = Ok (negb b) s)
        ∨ ∃ e, lacks p s = Threw e s)).
Proof.
  unfold lacks. unfold_monad.
  destruct (truthy (currentUser s)) eqn:Hcu; simpl; [right|by left].
  split; [done|].
  destruct (hasPermission_outcome p s) as [[b ->]|[e ->]].
  - left. by exists b.
  - right. by exists e.
Qed.

(** A role that grants [view:dashboard] has the dashboard flag. *)
Lemma dashboard_permission_has_access (s : State) :
  hasPermission "view:dashboard" s = Ok true s →
  role_has_dashboard (currentUser s) = true.
Proof.
  unfold hasPermission, role_has_dashboard, get_opt. unfold_monad.
  destruct (truthy (currentUser s)); simpl; [|done].
  destruct (get_prop (currentUser s) "role") as [e|r]; simpl; [done|].
  unfold roles_get.
  destruct (roles !! ToString r) as [R|] eqn:HR; [|by destruct (decide _)].
  unfold roles in HR.
  repeat (apply lookup_insert_Some in HR as [[_ <-]|[_ HR]];
          [by vm_compute|]).
  by rewrite lookup_empty in HR.
Qed.

Lemma protectRoutes_returns (env : Env) (s s' : State) :
  protectRoutes env s = Ok tt s' →
  s' = s
  ∨ s' = redirected env "Please log in to access the dashboard" s
  ∨ s' = redirected env "Audit access requires elevated permissions" s.
Proof.
  unfold protectRoutes, redirected. unfold mbind at 1, M_bind at 1.
  assert (∀ s0,
    (if ends_with "audit.html" (location_pathname env)
     then denied ← lacks "audit:full";
          if (denied : bool)
          then redirectToLogin env "Audit access requires elevated permissions"
          else mret tt
     else mret tt) s0 = Ok tt s' →
    s' = s0
    ∨ s' = final (redirectToLogin env
                    "Audit access requires elevated permissions" s0)) as Haudit.
  { intros s0. destruct (ends_with _ _); [|intros [= <-]; by left].
    unfold mbind, M_bind.
    destruct (lacks_spec "audit:full" s0)
      as [[_ ->]|[_ [(b & _ & ->)|[e ->]]]]; [| |done].
    - intros [= <-]. by right.
    - destruct b; intros [= <-]; [by left|by right]. }
  destruct (_ || _); simpl.
  - unfold mbind at 1, M_bind at 1.
    destruct (lacks_spec "view:dashboard" s)
      as [[_ ->]|[_ [(b & Hb & ->)|[e ->]]]]; [| |done].
    + unfold mbind, M_bind. simpl. intros [= <-]. auto.
    + destruct b; simpl.
      * unfold gets, mbind, M_bind.
        rewrite (dashboard_permission_has_access s Hb). simpl.
        intros H. apply Haudit in H as [->| ->]; auto.
      * unfold mbind, M_bind. simpl. intros [= <-]. auto.
  - intros H. apply Haudit in H as [->| ->]; auto.
Qed.

Lemma protectRoutes_final (env : Env) (s : State) :
  final (protectRoutes env s) = s
  ∨ final (protectRoutes env s) =
    redirected env "Please log in to access the dashboard" s
  ∨ final (protectRoutes env s) =
    redirected env "Audit access requires elevated permissions" s.
Proof.
  destruct (protectRoutes env s) as [[] s'|e s'] eqn:Hrun.
  { by apply protectRoutes_returns. }
  left. simpl. revert Hrun.
  unfold protectRoutes. unfold mbind at 1, M_bind at 1.
  assert (∀ s0,
    (if ends_with "audit.html" (location_pathname env)
     then denied ← lacks "audit:full";
          if (denied : bool)
          then redirectToLogin env "Audit access requires elevated permissions"
          else mret tt
     else mret tt) s0 = Threw e s' → s' = s0) as Haudit.
  { intros s0. destruct (ends_with _ _); [|done].
    unfold mbind, M_bind.
    destruct (lacks_spec "audit:full" s0)
      as [[_ ->]|[_ [(b & _ & ->)|[e' ->]]]]; [done| |by intros [= _ <-]].
    by destruct b. }
  destruct (_ || _); simpl.
  - unfold mbind at 1, M_bind at 1.
    destruct (lacks_spec "view:dashboard" s)
      as [[_ ->]|[_ [(b & Hb & ->)|[e' ->]]]]; [done| |by intros [= _ <-]].
    destruct b; simpl; [|done].
    unfold gets, mbind, M_bind.
    rewrite (dashboard_permission_has_access s Hb). simpl. apply Haudit.
  - apply Haudit.
Qed.

(** When [protectRoutes] returns, it has done nothing or has redirected to
    the login page with the message for a missing dashboard or audit
    permission: with the six roles as they are, the redirect for
    insufficient dashboard access never happens. *)
Theorem protectRoutes_outcomes (env : Env) (s s' : State) :
  protectRoutes env s = Ok tt s' →
  s' = s
  ∨ s' = redirected env "Please log in to access the dashboard" s
  ∨ s' = redirected env "Audit access requires elevated permissions" s.
Proof.
  intros Hrun. pose proof (protectRoutes_final env s) as Hfinal.
  rewrite Hrun in Hfinal. exact Hfinal.
Qed.

Lemma protectRoutes_outcomes_witness :
  let s' :=
    redirected audit_page_env "Audit access requires elevated permissions"
      alice_logged_in in
  hasPermission "view:dashboard" alice_logged_in = Ok true alice_logged_in
  ∧ hasPermission "audit:full" alice_logged_in = Ok false alice_logged_in
  ∧ protectRoutes audit_page_env alice_logged_in = Ok tt s'
  ∧ (s' = alice_logged_in
     ∨ s' = redirected audit_page_env "Please log in to access the dashboard"
              alice_logged_in
     ∨ s' = redirected audit_page_env
              "Audit access requires elevated permissions" alice_logged_in).
Proof.
  split_and!.
  - vm_compute. reflexivity.
  - vm_compute. reflexivity.
  - vm_compute. reflexivity.
  - apply (protectRoutes_outcomes audit_page_env alice_logged_in).
    vm_compute. reflexivity.
Defined.

Lemma redirected_keeps (env : Env) (msg : string) (s : State) :
  log (redirected env msg s) = log s
  ∧ currentUser (redirected env msg s) = currentUser s
  ∧ localStorage (redirected env msg s) !! "fw-auth"
    = localStorage s !! "fw-auth"
  ∧ localStorage (redirected env msg s) !! "fw-audit-log"
    = localStorage s !! "fw-audit-log".
Proof.
  unfold redirected. simpl. split_and!; try done.
  - by rewrite !lookup_insert_ne.
  - by rewrite !lookup_insert_ne.
Qed.

(** [protectRoutes] leaves no trace of a refused page: whether it returns
    or throws, the audit log, the current user and the persisted session
    and log are as before. *)
Theorem protectRoutes_leaves_no_trace (env : Env) (s : State) :
  let s' := final (protectRoutes env s) in
  log s' = log s
  ∧ currentUser s' = currentUser s
  ∧ localStorage s' !! "fw-auth" = localStorage s !! "fw-auth"
  ∧ localStorage s' !! "fw-audit-log" = localStorage s !! "fw-audit-log".
Proof.
  destruct (protectRoutes_final env s) as [->|[->| ->]];
    [done|apply redirected_keeps..].
Qed.

(** Without a session [protectRoutes] does not consult the roles, and
    returns. *)
Lemma protectRoutes_without_session (env : Env) (s : State) :
  truthy (currentUser s) = false → ∃ s', protectRoutes env s = Ok tt s'.
Proof.
  intros Hcu.
  assert (∀ p, lacks p s = Ok true s) as Hlacks.
  { intros p. unfold lacks. unfold_monad. by rewrite Hcu. }
  unfold protectRoutes. unfold mbind at 1, M_bind at 1.
  destruct (_ || _).
  - unfold mbind at 1, M_bind at 1. rewrite Hlacks. by eexists.
  - unfold mret at 1, M_ret at 1. destruct (ends_with _ _); [|by eexists].
    unfold mbind, M_bind. rewrite Hlacks. by eexists.
Qed.

(** A manager constructed over an unreadable persisted log and no persisted
    session starts with an empty log and no session; the unreadable text
    stays in the storage. *)
Theorem AuthManager_new_with_unreadable_log (env : Env)
    (storage : gmap string Text) (text : Text) (e : Error) :
  storage !! "fw-audit-log" = Some text →
  JSON_parse text = inl e →
  storage !! "fw-auth" = None →
  ∃ s, AuthManager_new env storage = Some (Ok tt s)
       ∧ log s = []
       ∧ currentUser s = JNull
       ∧ localStorage s !! "fw-audit-log" = Some text.
Proof.
  intros Hlog Hparse Hauth.
  unfold AuthManager_new, constructed, loadStoredAuditLog.
  rewrite Hlog. simpl default. rewrite Hparse.
  assert (∀ (A : Type) (x : A), (if text_falsy (Some text) then x else x) = x)
    as -> by (intros; by destruct (text_falsy _)).
  simpl. set (s0 := Build_State _ _ _ _ _ _ _ _ _).
  assert (loadSession env s0 = Ok tt s0) as Hload.
  { unfold loadSession, getItem. unfold_monad. subst s0. simpl.
    by rewrite Hauth. }
  unfold init, mbind, M_bind. rewrite Hload.
  assert (log (final (protectRoutes env s0)) = log s0
          ∧ currentUser (final (protectRoutes env s0)) = currentUser s0
          ∧ localStorage (final (protectRoutes env s0)) !! "fw-auth"
            = localStorage s0 !! "fw-auth"
          ∧ localStorage (final (protectRoutes env s0)) !! "fw-audit-log"
            = localStorage s0 !! "fw-audit-log") as (Hl & Hu & _ & Hst).
  { destruct (protectRoutes_final env s0) as [->|[->| ->]];
      [done|apply redirected_keeps..]. }
  destruct (protectRoutes_without_session env s0) as [s Hrun]; [done|].
  rewrite Hrun in *. exists s. simpl in *. split_and!; [done| | |].
  - rewrite Hl. unfold log, array_at, s0. simpl.
    by rewrite lookup_singleton_eq.
  - by rewrite Hu.
  - by rewrite Hst.
Qed.

Lemma AuthManager_new_with_unreadable_log_witness :
  ∃ s, AuthManager_new demo_env storage_with_garbled_log = Some (Ok tt s)
       ∧ log s = []
       ∧ currentUser s = JNull
       ∧ localStorage s !! "fw-audit-log" = Some (Verbatim "[{id: audit-1").
Proof.
  apply (AuthManager_new_with_unreadable_log demo_env storage_with_garbled_log
           (Verbatim "[{id: audit-1")
           (SyntaxError ("Unexpected token in JSON: " +:+ "[{id: audit-1"))).
  - reflexivity.
  - reflexivity.
  - reflexivity.
Defined.

(** Without a session, [FW_API.request] answers 401 for every endpoint and
    changes nothing: no audit entry. *)
Theorem request_without_session (env : Env) (endpoint : string)
    (data : JSValue) (method : string) (call : M ApiResult) (s : State) :
  FW_API_request env endpoint data method = Some call →
  truthy (currentUser s) = false →
  call s = Ok (ApiError 401 "Authentication required") s.
Proof.
  intros Hcall Hcu. unfold FW_API_request in Hcall.
  assert (∀ p, request_with env p endpoint data method s
               = Ok (ApiError 401 "Authentication required") s) as Hreq.
  { intros p. unfold request_with. unfold_monad. by rewrite Hcu. }
  destruct (endpointPermissions !! endpoint).
  - injection Hcall as <-. apply Hreq.
  - destruct (decide _); [done|]. injection Hcall as <-. apply Hreq.
Qed.

Lemma request_without_session_witness :
  request_with demo_env (Some "audit:full") "/api/audit/logs" JUndefined "GET"
    fresh_manager =
  Ok (ApiError 401 "Authentication required") fresh_manager.
Proof.
  apply (request_without_session demo_env "/api/audit/logs" JUndefined "GET").
  - reflexivity.
  - reflexivity.
Defined.

(** For an endpoint of the permission table and a session for which
    [hasPermission] returns a result: when the permission is granted the
    request is accepted and one [api_request] entry is appended; when it is
    not, the answer is 403 and one [api_permission_denied] entry records the
    endpoint, the permission and the user. *)
Theorem request_checks_permission (env : Env) (endpoint p : string)
    (d : JSValue) (method : string) (s : State) (granted : bool) :
  endpointPermissions !! endpoint = Some p →
  truthy (currentUser s) = true →
  hasPermission p s = Ok granted s →
  ∃ call s' e,
    FW_API_request env endpoint d method = Some call
    ∧ log s' = slice_last AUDIT_CAP (log s ++ [e])
    ∧ currentUser s' = currentUser s
    ∧ if granted
      then call s = Ok ApiPending s' ∧ event e = "api_request"
      else call s = Ok (ApiError 403 "Insufficient permissions") s'
           ∧ event e = "api_permission_denied"
           ∧ data e = JObj [("endpoint", JStr endpoint);
                            ("requiredPermission", JStr p);
                            ("userId", get_opt (currentUser s) "username")].
Proof.
  intros Hp Hcu Hhas. unfold FW_API_request. rewrite Hp.
  exists (request_with env (Some p) endpoint d method).
  unfold request_with. unfold_monad. rewrite Hcu. simpl. rewrite Hhas.
  destruct granted; simpl.
  - step_logAudit s' Heq Happ. eexists s', _. split_and!.
    + reflexivity.
    + apply (appended_log _ _ _ Happ).
    + apply (appended_user _ _ _ Happ).
    + reflexivity.
    + reflexivity.
  - step_logAudit s' Heq Happ. eexists s', _. split_and!.
    + reflexivity.
    + apply (appended_log _ _ _ Happ).
    + apply (appended_user _ _ _ Happ).
    + reflexivity.
    + reflexivity.
    + reflexivity.
Qed.

Lemma request_checks_permission_witness :
  ∃ call s' e,
    FW_API_request demo_env "/api/deaccessions/approve" JUndefined "POST"
      = Some call
    ∧ log s' = slice_last AUDIT_CAP (log alice_logged_in ++ [e])
    ∧ currentUser s' = currentUser alice_logged_in
    ∧ call alice_logged_in = Ok (ApiError 403 "Insufficient permissions") s'
    ∧ event e = "api_permission_denied"
    ∧ data e = JObj [("endpoint", JStr "/api/deaccessions/approve");
                     ("requiredPermission", JStr "approve:deaccession");
                     ("userId", get_opt (currentUser alice_logged_in) "username")].
Proof.
  apply (request_checks_permission demo_env "/api/deaccessions/approve"
           "approve:deaccession" JUndefined "POST" alice_logged_in false).
  - reflexivity.
  - reflexivity.
  - reflexivity.
Defined.

(** An endpoint that is not in the permission table is served to every
    session, whatever its role, registered or not: the request is accepted
    and one [api_request] entry is appended. *)
Theorem request_unlisted_endpoint (env : Env) (endpoint : string)
    (d : JSValue) (method : string) (s : State) :
  endpointPermissions !! endpoint = None →
  endpoint ∉ Object_prototype_keys →
  truthy (currentUser s) = true →
  ∃ call s' e,
    FW_API_request env endpoint d method = Some call
    ∧ call s = Ok ApiPending s'
    ∧ log s' = slice_last AUDIT_CAP (log s ++ [e])
    ∧ event e = "api_request"
    ∧ userId e = js_or (get_opt (currentUser s) "username") (JStr "anonymous").
Proof.
  intros Hp Hproto Hcu. unfold FW_API_request. rewrite Hp.
  rewrite decide_False by done.
  exists (request_with env None endpoint d method).
  unfold request_with. unfold_monad. rewrite Hcu. simpl.
  step_logAudit s' Heq Happ. eexists s', _. split_and!.
  - reflexivity.
  - reflexivity.
  - apply (appended_log _ _ _ Happ).
  - reflexivity.
  - reflexivity.
Qed.

(** The page on which the empty object of the storage has become the
    current user. *)
Lemma request_unlisted_endpoint_witness :
  let s := final (loadSession demo_env page_with_empty_object_session) in
  ∃ call s' e,
    FW_API_request demo_env "/api/catalog/search" JUndefined "GET" = Some call
    ∧ call s = Ok ApiPending s'
    ∧ log s' = slice_last AUDIT_CAP (log s ++ [e])
    ∧ event e = "api_request"
    ∧ userId e = js_or (get_opt (currentUser s) "username") (JStr "anonymous").
Proof.
  apply (request_unlisted_endpoint demo_env "/api/catalog/search" JUndefined
           "GET" (final (loadSession demo_env page_with_empty_object_session))).
  - reflexivity.
  - by_compute.
  - reflexivity.
Defined.

(** A click on an element with [data-permission], when [hasPermission]
    returns a result for the permission: if it is granted the click goes
    through and one [action_performed] entry is appended; if not, the click
    is cancelled and one [permission_denied] entry is appended.  Either
    way the log gets exactly one entry. *)
Theorem on_click_logs_once (env : Env) (button : Element) (s : State)
    (granted : bool) :
  hasPermission (data_permission button) s = Ok granted s →
  ∃ s' e,
    on_click env button s = Ok (negb granted) s'
    ∧ log s' = slice_last AUDIT_CAP (log s ++ [e])
    ∧ event e = (if granted then "action_performed" else "permission_denied")
    ∧ currentUser s' = currentUser s.
Proof.
  intros Hhas. unfold on_click, requirePermission, showError. unfold_monad.
  rewrite Hhas. destruct granted; simpl.
  - step_logAudit s' Heq Happ. eexists s', _. split_and!.
    + reflexivity.
    + apply (appended_log _ _ _ Happ).
    + reflexivity.
    + apply (appended_user _ _ _ Happ).
  - step_logAudit s' Heq Happ. eexists s', _. split_and!.
    + reflexivity.
    + apply (appended_log _ _ _ Happ).
    + reflexivity.
    + apply (appended_user _ _ _ Happ).
Qed.

Lemma on_click_logs_once_witness :
  ∃ s' e,
    on_click demo_env approve_button alice_logged_in = Ok (negb false) s'
    ∧ log s' = slice_last AUDIT_CAP (log alice_logged_in ++ [e])
    ∧ event e = "permission_denied"
    ∧ currentUser s' = currentUser alice_logged_in.
Proof.
  apply (on_click_logs_once demo_env approve_button alice_logged_in false).
  reflexivity.
Defined.

(** * How the operations compose *)

(** The session object [setSession] installs. *)
Lemma setSession_session (env : Env) (u r n t : JSValue) (s : State) :
  ∃ s', setSession env u r n t s = Ok tt s'
        ∧ currentUser s' =
          JObj [("username", u); ("role", r); ("name", n);
                ("timestamp", JStr (toISOString env (clock env (clockReads s))));
                ("sessionId",
                 JStr ("fw-" +:+ pretty (clock env (S (clockReads s)))));
                ("twoFactor",
                 match t with JUndefined => JBool false | _ => t end)].
Proof.
  unfold setSession, Date_now, setItem. unfold_monad. simpl.
  step_logAudit s' Heq Happ.
  exists s'. split; [done|]. by rewrite (appended_user _ _ _ Happ).
Qed.

(** A session created by [setSession] for one of the six registered roles
    is granted exactly the wildcard or the permissions its role lists. *)
Theorem setSession_grants_listed (env : Env) (u n t : JSValue) (k : string)
    (R : Role) (P : string) (s : State) :
  roles !! k = Some R →
  returned (hasPermission P (final (setSession env u (JStr k) n t s))) =
  Some (bool_decide ("*" ∈ permissions R ∨ P ∈ permissions R)).
Proof.
  intros HR.
  destruct (setSession_session env u (JStr k) n t s) as (s' & Hrun & Hsession).
  rewrite Hrun. simpl.
  assert (truthy (currentUser s') = true ∧
          get_prop (currentUser s') "role" = inr (JStr k)) as [Hcu Hget].
  { by rewrite Hsession. }
  rewrite (hasPermission_registered_role s' (JStr k) R P Hcu Hget HR). simpl.
  f_equal. apply bool_decide_ext. split; [|tauto].
  intros [H|[H|H]]; [tauto|tauto|].
  by apply (no_category_wildcard _ _ _ HR) in H.
Qed.

Lemma setSession_grants_listed_witness :
  returned (hasPermission "edit:metadata"
              (final (setSession demo_env (JStr "alice") (JStr "curator")
                        (JStr "Alice") JUndefined fresh_manager))) =
  Some (bool_decide ("*" ∈ permissions curator
                     ∨ "edit:metadata" ∈ permissions curator)).
Proof.
  apply (setSession_grants_listed demo_env (JStr "alice") (JStr "Alice")
           JUndefined "curator" curator "edit:metadata" fresh_manager).
  reflexivity.
Defined.

(** After [logout], in any state and for any reason, every permission check
    returns false. *)
Theorem hasPermission_after_logout (env : Env) (reason P : string) (s : State) :
  returned (hasPermission P (final (logout env reason s))) = Some false.
Proof.
  destruct (logout_ends_session env reason s) as (s' & -> & Hcu & _). simpl.
  by rewrite (hasPermission_no_session s' P Hcu).
Qed.

(** A start or end date that is given but is not a date makes
    [getAuditLog] return no entry. *)
Theorem getAuditLog_with_invalid_date (env : Env) (filters : Filters)
    (s : State) (d : string) :
  given (filter_startDate filters) = Some d
  ∨ given (filter_endDate filters) = Some d →
  Date_parse env d = None →
  ∃ l s', getAuditLog env filters s = Ok l s' ∧ array_at s' l = [].
Proof.
  intros Hgiven Hnan.
  destruct (getAuditLog_yields env filters s) as (l & s' & Hrun & _ & _ & Hc).
  exists l, s'. split; [done|]. unfold array_at. rewrite Hc. simpl.
  rewrite query_sorts_matches.
  assert (∀ e, matches env filters e = false) as Hno.
  { intros e. unfold matches, not_before, not_after.
    destruct Hgiven as [-> | ->]; rewrite Hnan.
    - destruct (Date_parse env (timestamp e));
        by rewrite ?andb_false_r, ?andb_false_l.
    - destruct (Date_parse env (timestamp e)); by rewrite ?andb_false_r. }
  clear Hc Hrun. induction (log s) as [|e l0 IH]; [done|].
  cbn [List.filter]. rewrite Hno. exact IH.
Qed.

Lemma getAuditLog_with_invalid_date_witness :
  ∃ l s',
    getAuditLog demo_env
      {| filter_userId := None; filter_event := None;
         filter_startDate := Some "yesterday"; filter_endDate := None |}
      alice_logged_in = Ok l s'
    ∧ array_at s' l = [].
Proof.
  apply (getAuditLog_with_invalid_date demo_env
           {| filter_userId := None; filter_event := None;
              filter_startDate := Some "yesterday"; filter_endDate := None |}
           alice_logged_in "yesterday").
  - left. reflexivity.
  - reflexivity.
Defined.

(** Read back by a CSV reader, the CSV export has one record per entry
    after the header, and every record has six fields, whatever commas,
    double quotes or line breaks the entries contain. *)
Theorem csv_export_is_rectangular (logs : list AuditEntry) :
  ∃ records,
    csv_parse (csv_of logs) = Some records
    ∧ length records = S (length logs)
    ∧ Forall (λ record, length record = 6%nat) records.
Proof.
  exists (csv_headers :: List.map csv_row logs). split_and!.
  - apply csv_parse_export.
  - simpl. by rewrite length_map.
  - constructor; [done|]. induction logs; by constructor.
Qed.
